(** * email_extractor: a shallow embedding of the extraction pipeline

    The development follows [email_extractor.py] and [email_extractor_cli.py]:
    the text model and the fragment of Python's [re] engine that the shared
    pattern needs, the calendar loader, the attendee extractor, the cleaner,
    the two text-file extractors and the merge step of the command line. *)

From Stdlib Require Import Ascii String NArith ZArith.
From stdpp Require Import base list strings gmap.

Local Open Scope N_scope.

(** ** Text

    A Python [str] is a sequence of code points.  The model keeps the code
    points 0..255, one [ascii] each; [str] reads a literal. *)

Abbreviation text := (list ascii).

Definition str (s : string) : text := list_ascii_of_string s.

Definition code (c : ascii) : N := N_of_ascii c.

Definition between (lo hi : N) (c : ascii) : bool :=
  (lo <=? code c) && (code c <=? hi).

(** [str.isspace] on one character: the ASCII table of CPython
    (tab, LF, VT, FF, CR, FS, GS, RS, US, space) and, above it, NEL and the
    no-break space. *)
Definition is_space (c : ascii) : bool :=
  between 9 13 c || between 28 32 c || (code c =? 133) || (code c =? 160).

(** The [\w] class of a [str] pattern: alphanumeric or underscore.  Above
    ASCII the alphanumerics of the Latin-1 block are the ordinal indicators,
    the micro sign, the superscript digits, the vulgar fractions and the
    letters (all of 192..255 but the multiplication and division signs). *)
Definition is_word (c : ascii) : bool :=
  between 48 57 c || between 65 90 c || between 97 122 c || (code c =? 95)
  || (code c =? 170) || (code c =? 178) || (code c =? 179) || (code c =? 181)
  || between 185 186 c || between 188 190 c
  || between 192 214 c || between 216 246 c || between 248 255 c.

(** [str.strip()] *)
Fixpoint lstrip (s : text) : text :=
  match s with
  | c :: s' => if is_space c then lstrip s' else s
  | [] => []
  end.

Definition rstrip (s : text) : text := rev (lstrip (rev s)).

Definition strip (s : text) : text := rstrip (lstrip s).

(** [sep.join(parts)] *)
Fixpoint join (sep : text) (parts : list text) : text :=
  match parts with
  | [] => []
  | [p] => p
  | p :: ps => p ++ sep ++ join sep ps
  end.

(** [s.split(sep)] for a one-character separator: the pieces between the
    occurrences of [sep], empty pieces kept. *)
Fixpoint split (sep : ascii) (s : text) : list text :=
  match s with
  | [] => [[]]
  | c :: s' =>
      if Ascii.eqb c sep then [] :: split sep s'
      else match split sep s' with
           | p :: ps => (c :: p) :: ps
           | [] => [[c]]
           end
  end.

(** ** The regular-expression engine

    A pattern is the list of operations [sre_parse] produces for it; only
    the operations of the shared pattern are modelled.  A set is a list of
    ranges and literals, a repeat is greedy, without an upper bound, over a
    one-character set. *)

Inductive set_item : Type :=
  | RANGE (lo hi : ascii)
  | LITERAL (c : ascii).

Inductive op : Type :=
  | AT_BOUNDARY
  | LIT (c : ascii)
  | IN (items : list set_item)
  | MAX_REPEAT (min : nat) (items : list set_item).

Definition item_matches (c : ascii) (i : set_item) : bool :=
  match i with
  | RANGE lo hi => between (code lo) (code hi) c
  | LITERAL x => Ascii.eqb c x
  end.

Definition in_set (items : list set_item) (c : ascii) : bool :=
  existsb (item_matches c) items.

Definition word_at (c : option ascii) : bool :=
  match c with
  | Some x => is_word x
  | None => false
  end.

(** [\b] at a position: the characters on its two sides differ in
    word-ness; outside the text counts as not a word character. *)
Definition at_boundary (prev : option ascii) (s : text) : bool :=
  xorb (word_at prev) (word_at (head s)).

(** The longest prefix of [s] inside a set. *)
Fixpoint run_length (items : list set_item) (s : text) : nat :=
  match s with
  | c :: s' => if in_set items c then S (run_length items s') else O
  | [] => O
  end.

(** The character before the position reached after [k] more characters. *)
Fixpoint prev_after (k : nat) (prev : option ascii) (s : text) : option ascii :=
  match k, s with
  | S k', c :: s' => prev_after k' (Some c) s'
  | _, _ => prev
  end.

(** Backtracking of a greedy repeat: the tail is tried after [n]
    repetitions, then [n - 1], down to [min]; the first success is kept. *)
Fixpoint try_down (n min : nat) (tail : nat -> option nat) : option nat :=
  if (n <? min)%nat then None
  else match tail n with
       | Some r => Some r
       | None =>
           match n with
           | O => None
           | S n' => try_down n' min tail
           end
       end.

(** [match_ops ops must_advance consumed prev s] runs [ops] on the suffix
    [s] of the text, [prev] being the character before it and [consumed] the
    number of characters matched so far; it returns the length of the match.
    [must_advance] refuses an empty match (set by [findall] after one). *)
Fixpoint match_ops (ops : list op) (must_advance : bool) (consumed : nat)
    (prev : option ascii) (s : text) : option nat :=
  match ops with
  | [] =>
      if must_advance && (consumed =? 0)%nat then None else Some consumed
  | AT_BOUNDARY :: ops' =>
      if at_boundary prev s then match_ops ops' must_advance consumed prev s
      else None
  | LIT c :: ops' =>
      match s with
      | x :: s' =>
          if Ascii.eqb x c
          then match_ops ops' must_advance (S consumed) (Some x) s'
          else None
      | [] => None
      end
  | IN items :: ops' =>
      match s with
      | x :: s' =>
          if in_set items x
          then match_ops ops' must_advance (S consumed) (Some x) s'
          else None
      | [] => None
      end
  | MAX_REPEAT min items :: ops' =>
      try_down (run_length items s) min
        (fun k =>
           match_ops ops' must_advance (consumed + k)
             (prev_after k prev s) (drop k s))
  end.

(** [re.match(pattern, s)]: a match at position 0, of any length. *)
Definition re_match (pattern : list op) (s : text) : option nat :=
  match_ops pattern false 0 None s.

(** [re.findall(pattern, s)] for a pattern without groups: the scan tries
    each position from the left; after a match it resumes where the match
    ended.  [skip] counts the characters of the last match still to pass.
    After an empty match the same position is tried again for a match that
    is not empty. *)
Fixpoint scan (pattern : list op) (prev : option ascii) (s : text)
    (skip : nat) : list text :=
  match s with
  | [] =>
      match match_ops pattern false 0 prev [] with
      | Some _ => [[]]
      | None => []
      end
  | c :: s' =>
      match skip with
      | S k => scan pattern (Some c) s' k
      | O =>
          match match_ops pattern false 0 prev s with
          | Some (S n) => take (S n) s :: scan pattern (Some c) s' n
          | Some O =>
              [] :: match match_ops pattern true 0 prev s with
                    | Some (S n) => take (S n) s :: scan pattern (Some c) s' n
                    | _ => scan pattern (Some c) s' 0
                    end
          | None => scan pattern (Some c) s' 0
          end
      end
  end.

Definition findall (pattern : list op) (s : text) : list text :=
  scan pattern None s 0.

(** *** Reading a pattern

    The part of [sre_parse] that the shared pattern needs: [\b], an escaped
    punctuation character, a set with ranges (a hyphen before the closing
    bracket stands for itself), a plain character, and the quantifiers [+]
    and [{n,}] on the item before them. *)

Fixpoint parse_set (s : text) : option (list set_item * text) :=
  match s with
  | [] => None
  | c :: rest =>
      if Ascii.eqb c "]" then Some ([], rest)
      else
        match rest with
        | d :: hi :: rest' =>
            if Ascii.eqb d "-" then
              if Ascii.eqb hi "]" then Some ([LITERAL c; LITERAL "-"], rest')
              else match parse_set rest' with
                   | Some (items, r) => Some (RANGE c hi :: items, r)
                   | None => None
                   end
            else match parse_set rest with
                 | Some (items, r) => Some (LITERAL c :: items, r)
                 | None => None
                 end
        | _ => match parse_set rest with
               | Some (items, r) => Some (LITERAL c :: items, r)
               | None => None
               end
        end
  end.

Fixpoint parse_count (s : text) (acc : nat) : nat * text :=
  match s with
  | c :: rest =>
      if between 48 57 c
      then parse_count rest (10 * acc + N.to_nat (code c - 48))
      else (acc, s)
  | [] => (acc, [])
  end.

Definition parse_item (s : text) : option (op * text) :=
  match s with
  | [] => None
  | c :: rest =>
      if Ascii.eqb c "\" then
        match rest with
        | e :: rest' =>
            if Ascii.eqb e "b" then Some (AT_BOUNDARY, rest')
            else if is_word e then None
            else Some (LIT e, rest')
        | [] => None
        end
      else if Ascii.eqb c "[" then
        match parse_set rest with
        | Some (items, r) => Some (IN items, r)
        | None => None
        end
      else Some (LIT c, rest)
  end.

Definition repeated (min : nat) (body : op) : option op :=
  match body with
  | IN items => Some (MAX_REPEAT min items)
  | LIT c => Some (MAX_REPEAT min [LITERAL c])
  | _ => None
  end.

Definition parse_quantifier (body : op) (s : text) : option (op * text) :=
  match s with
  | c :: rest =>
      if Ascii.eqb c "+" then
        match repeated 1 body with
        | Some o => Some (o, rest)
        | None => None
        end
      else if Ascii.eqb c "{" then
        match parse_count rest 0 with
        | (min, d :: e :: rest') =>
            if Ascii.eqb d "," && Ascii.eqb e "}" then
              match repeated min body with
              | Some o => Some (o, rest')
              | None => None
              end
            else None
        | _ => None
        end
      else Some (body, s)
  | [] => Some (body, [])
  end.

Fixpoint parse_ops (fuel : nat) (s : text) : option (list op) :=
  match fuel with
  | O => None
  | S fuel' =>
      match s with
      | [] => Some []
      | _ :: _ =>
          match parse_item s with
          | Some (body, rest) =>
              match parse_quantifier body rest with
              | Some (o, rest') =>
                  match parse_ops fuel' rest' with
                  | Some ops => Some (o :: ops)
                  | None => None
                  end
              | None => None
              end
          | None => None
          end
      end
  end.

(** [re.compile(pattern)], when the pattern is in the part that is read. *)
Definition compile (pattern : string) : option (list op) :=
  parse_ops (S (String.length pattern)) (str pattern).

(** [r"\b[A-Za-z0-9._%+-]+@[A-Za-z0-9.-]+\.[A-Z|a-z]{2,}\b"], the pattern
    that the three extractors spell out, as it is compiled. *)
Definition email_pattern : list op :=
  [ AT_BOUNDARY;
    MAX_REPEAT 1 [RANGE "A" "Z"; RANGE "a" "z"; RANGE "0" "9"; LITERAL ".";
                  LITERAL "_"; LITERAL "%"; LITERAL "+"; LITERAL "-"];
    LIT "@";
    MAX_REPEAT 1 [RANGE "A" "Z"; RANGE "a" "z"; RANGE "0" "9"; LITERAL ".";
                  LITERAL "-"];
    LIT ".";
    MAX_REPEAT 2 [RANGE "A" "Z"; LITERAL "|"; RANGE "a" "z"];
    AT_BOUNDARY ]%char.


(** ** Errors

    The exceptions that the modelled code can raise, and the result of a
    computation that may raise one. *)

Inductive exn : Type :=
  | KeyError (key : string)
  | AttributeError (attr : string).

Inductive result (A : Type) : Type :=
  | Ok (a : A)
  | Raise (e : exn).

Arguments Ok {A} a.
Arguments Raise {A} e.

Definition bind {A B} (r : result A) (k : A -> result B) : result B :=
  match r with
  | Ok a => k a
  | Raise e => Raise e
  end.

Notation "x <-- r ;; k" := (bind r (fun x => k))
  (at level 100, r at next level, right associativity).

(** A [for] loop whose body may raise: the state is threaded through the
    items and the first exception ends the loop. *)
Fixpoint for_each {A S} (items : list A) (body : S -> A -> result S)
    (s : S) : result S :=
  match items with
  | [] => Ok s
  | x :: items' => s' <-- body s x ;; for_each items' body s'
  end.

(** ** Calendar components

    The calendar arrives parsed by [icalendar]; [ics_to_dataframe] works on
    the VEVENT components that [gcal.walk] yields.  Times are counted in
    microseconds, dates in days, both from 1970-01-01. *)

Local Open Scope Z_scope.

Definition us_per_day : Z := 86400000000.

(** The proleptic Gregorian day number of a civil date. *)
Definition date (y m d : Z) : Z :=
  let y' := if m <=? 2 then y - 1 else y in
  let era := y' / 400 in
  let yoe := y' - era * 400 in
  let mp := if m <=? 2 then m + 9 else m - 3 in
  let doy := (153 * mp + 2) / 5 + d - 1 in
  let doe := yoe * 365 + yoe / 4 - yoe / 100 + doy in
  era * 146097 + doe - 719468.

(** [datetime(y, m, d, hh, mm)] without a zone: its wall-clock reading. *)
Definition datetime (y m d hh mm : Z) : Z :=
  date y m d * us_per_day + (hh * 60 + mm) * 60000000.

(** The [.dt] of a DTSTART or DTEND property: a [datetime.date], or a
    [datetime.datetime] with its wall-clock reading and, when it is aware,
    its offset from UTC. *)
Inductive dt : Type :=
  | Date (days : Z)
  | DateTime (wall : Z) (utcoffset : option Z).

(** An item the attendee loop iterates over: a [vCalAddress] with its CN
    parameter when it has one, or any other string. *)
Inductive attendee : Type :=
  | VCalAddress (cn : option text)
  | RawText (s : text).

Record component : Type := {
  summary : option text;
  dtstart : option dt;
  dtend : option dt;
  location : option text;
  description : option text;
  attendee_items : list attendee
}.

(** The dictionary built for one component. *)
Record event_dict : Type := {
  d_Summary : option text;
  d_Start : dt;
  d_End : option dt;
  d_Location : option text;
  d_Description : option text;
  d_Attendees : text
}.

(** A row of the DataFrame once [Start] and [End] are timestamps: instants
    in UTC, [None] for NaT. *)
Record Event : Type := {
  Summary : option text;
  Start : Z;
  End : option Z;
  Location : option text;
  Description : option text;
  Attendees : text
}.

(** A row with the [Emails] column. *)
Record EventEmails : Type := {
  event : Event;
  Emails : text
}.

(** ** ics_to_dataframe *)

Section Loader.

(** The zone of the process: the offset from UTC that [astimezone] assumes
    for a wall-clock reading without a zone. *)
Variable local_utcoffset : Z -> Z.

(** [x.astimezone(pytz.utc)] *)
Definition astimezone_utc (wall : Z) (utcoffset : option Z) : dt :=
  match utcoffset with
  | Some off => DateTime (wall - off) (Some 0)
  | None => DateTime (wall - local_utcoffset wall) (Some 0)
  end.

(** [if isinstance(x, datetime): x = x.astimezone(pytz.utc)] *)
Definition convert (x : dt) : dt :=
  match x with
  | DateTime wall utcoffset => astimezone_utc wall utcoffset
  | Date days => Date days
  end.

(** [pd.to_datetime(x, utc=True)] on one value: a date is midnight UTC, an
    aware reading is its instant, a reading without a zone is taken as UTC. *)
Definition to_datetime_utc (x : dt) : Z :=
  match x with
  | Date days => days * us_per_day
  | DateTime wall (Some off) => wall - off
  | DateTime wall None => wall
  end.

Definition attendee_name (attendees : list text) (a : attendee)
  : result (list text) :=
  match a with
  | VCalAddress (Some cn) => Ok (attendees ++ [cn])
  | VCalAddress None => Raise (KeyError "CN")
  | RawText s => Ok (attendees ++ [s])
  end.

(** The body of the loop over the components. *)
Definition add_event (events : list event_dict) (c : component)
  : result (list event_dict) :=
  attendees <-- for_each (attendee_items c) attendee_name [] ;;
  match dtstart c with
  | None => Raise (AttributeError "dt")
  | Some start_dt =>
      let end_dt := dtend c in
      let start_dt := convert start_dt in
      let end_dt := option_map convert end_dt in
      Ok (events ++ [ {| d_Summary := summary c;
                         d_Start := start_dt;
                         d_End := end_dt;
                         d_Location := location c;
                         d_Description := description c;
                         d_Attendees := join (str ", ") attendees |} ])
  end.

Definition row (e : event_dict) : Event :=
  {| Summary := d_Summary e;
     Start := to_datetime_utc (d_Start e);
     End := option_map to_datetime_utc (d_End e);
     Location := d_Location e;
     Description := d_Description e;
     Attendees := d_Attendees e |}.

Definition in_range (start_date end_date : Z) (e : Event) : bool :=
  (start_date <=? Start e) && (Start e <? end_date).

(** [pd.DataFrame(events)] has no column at all when [events] is empty, so
    [df["Start"]] raises. *)
Definition ics_to_dataframe (gcal : list component)
    (start_date end_date : option Z) : result (list Event) :=
  events <-- for_each gcal add_event [] ;;
  match events with
  | [] => Raise (KeyError "Start")
  | _ :: _ =>
      let df := map row events in
      match start_date, end_date with
      | Some s, Some e => Ok (List.filter (in_range s e) df)
      | _, _ => Ok df
      end
  end.

End Loader.

(** ** extract_email_addresses *)

Definition extract_email_addresses (df : list Event) : list EventEmails :=
  map (fun e =>
         {| event := e;
            Emails := join (str ", ") (findall email_pattern (Attendees e)) |})
      df.

(** ** clean_and_explode_emails *)

Definition truthy (s : text) : bool :=
  match s with
  | [] => false
  | _ :: _ => true
  end.

Definition with_Emails (r : EventEmails) (s : text) : EventEmails :=
  {| event := event r; Emails := s |}.

(** One row per element of a list-valued [Emails] cell. *)
Definition explode (df : list (Event * list text)) : list EventEmails :=
  flat_map (fun '(e, parts) => map (fun p => {| event := e; Emails := p |}) parts)
           df.

Definition clean_and_explode_emails (df : list EventEmails)
  : list EventEmails :=
  let df := List.filter (fun r => truthy (Emails r)) df in
  let df := explode (map (fun r => (event r, split "," (Emails r))) df) in
  map (fun r => with_Emails r (strip (Emails r))) df.

(** ** The text-file extractors *)

Definition LF : ascii := "010".
Definition CR : ascii := "013".

(** A file opened with [open(path, "r")]: reading translates every line
    ending to a line feed. *)
Fixpoint read (raw : text) : text :=
  match raw with
  | [] => []
  | c :: raw' =>
      if Ascii.eqb c CR then
        match raw' with
        | d :: raw'' => if Ascii.eqb d LF then LF :: read raw'' else LF :: read raw'
        | [] => [LF]
        end
      else c :: read raw'
  end.

(** [for line in file]: the lines of what is read, each with its line feed. *)
Fixpoint lines (s : text) : list text :=
  match s with
  | [] => []
  | c :: s' =>
      if Ascii.eqb c LF then [c] :: lines s'
      else match lines s' with
           | l :: ls => (c :: l) :: ls
           | [] => [[c]]
           end
  end.

Definition extract_emails_from_text (files : list text) : list text :=
  fold_left (fun emails raw => emails ++ findall email_pattern (read raw))
            files [].

Definition extract_emails_from_newline_separated_text (raw : text)
  : list text :=
  fold_left (fun emails line =>
               let email := strip line in
               match re_match email_pattern email with
               | Some _ => emails ++ [email]
               | None => emails
               end)
            (lines (read raw)) [].

(** ** The command line: merge and deduplicate *)

(** [Series.unique()]: the distinct values in order of first appearance. *)
Definition unique (l : list text) : list text :=
  fold_left (fun seen x => if bool_decide (x ∈ seen) then seen else seen ++ [x])
            l [].

(** [set(emails_from_u_session + emails_from_calendar
         + emails_from_last_years_minis)] *)
Definition merge (emails_from_u_session emails_from_calendar
    emails_from_last_years_minis : list text) : gset text :=
  list_to_set
    (emails_from_u_session ++ emails_from_calendar
       ++ emails_from_last_years_minis).

Definition extract_emails (local_utcoffset : Z -> Z) (gcal : list component)
    (start_date end_date : option Z) (name_email_file : list text)
    (newline_email_file : option text) : result (gset text) :=
  df <-- ics_to_dataframe local_utcoffset gcal start_date end_date ;;
  let df := extract_email_addresses df in
  let df := clean_and_explode_emails df in
  let emails_from_calendar := unique (map Emails df) in
  let emails_from_last_years_minis :=
    match name_email_file with
    | [] => []
    | _ :: _ => extract_emails_from_text name_email_file
    end in
  let emails_from_u_session :=
    match newline_email_file with
    | Some raw => extract_emails_from_newline_separated_text raw
    | None => []
    end in
  Ok (merge emails_from_u_session emails_from_calendar
        emails_from_last_years_minis).

(** * Specification

    The declarative reading of the engine, the shapes in which the results
    are stated, and the inputs of the examples. *)

Local Open Scope nat_scope.

Definition last_or (prev : option ascii) (m : text) : option ascii :=
  match last m with
  | Some c => Some c
  | None => prev
  end.

(** [matches ops prev m rest]: [m], found between a text that ends with
    [prev] and the text [rest], has the shape that [ops] describe. *)
Inductive matches : list op -> option ascii -> text -> text -> Prop :=
  | matches_nil prev rest :
      matches [] prev [] rest
  | matches_boundary ops prev m rest :
      at_boundary prev (m ++ rest) = true ->
      matches ops prev m rest ->
      matches (AT_BOUNDARY :: ops) prev m rest
  | matches_lit c ops prev m rest :
      matches ops (Some c) m rest ->
      matches (LIT c :: ops) prev (c :: m) rest
  | matches_in items x ops prev m rest :
      in_set items x = true ->
      matches ops (Some x) m rest ->
      matches (IN items :: ops) prev (x :: m) rest
  | matches_repeat min items ops prev r m rest :
      min <= length r ->
      Forall (fun c => in_set items c = true) r ->
      matches ops (last_or prev r) m rest ->
      matches (MAX_REPEAT min items :: ops) prev (r ++ m) rest.

(** What a scan from the left reports: [tiles pattern prev s ms] walks [s]
    to its end; at each position it takes the next element of [ms] as a
    match that starts there, or passes over a character where no match
    starts. *)
Inductive tiles (pattern : list op) : option ascii -> text -> list text -> Prop :=
  | tiles_done prev :
      tiles pattern prev [] []
  | tiles_pass prev c s ms :
      (forall m rest, c :: s = m ++ rest -> ~ matches pattern prev m rest) ->
      tiles pattern (Some c) s ms ->
      tiles pattern prev (c :: s) ms
  | tiles_match prev m rest ms :
      m <> [] ->
      matches pattern prev m rest ->
      tiles pattern (last_or prev m) rest ms ->
      tiles pattern prev (m ++ rest) (m :: ms).

Definition op_accepts (c : ascii) (o : op) : bool :=
  match o with
  | AT_BOUNDARY => false
  | LIT x => Ascii.eqb c x
  | IN items => in_set items c
  | MAX_REPEAT _ items => in_set items c
  end.

(** The characters that some operation of a pattern can consume. *)
Definition alphabet (ops : list op) (c : ascii) : bool :=
  existsb (op_accepts c) ops.

(** A text without white space or comma. *)
Definition plain (m : text) : Prop :=
  Forall (fun c => is_space c = false /\ c <> ","%char) m.

(** The rows that one row of the input becomes. *)
Definition exploded (r : EventEmails) : list EventEmails :=
  if truthy (Emails r)
  then map (fun p => with_Emails r (strip p)) (split "," (Emails r))
  else [].

(** The rows that the calendar pipeline makes of one event: one for each
    match in its attendee text. *)
Definition matched_rows (e : Event) : list EventEmails :=
  map (fun m => {| event := e; Emails := m |})
      (findall email_pattern (Attendees e)).

(** An event known by its attendee text only. *)
Definition attended (s : string) : Event :=
  {| Summary := None; Start := 0; End := None; Location := None;
     Description := None; Attendees := str s |}.

(** The pattern as the specification words it: the last class holds the
    letters only. *)
Definition letters_email_pattern : list op :=
  [ AT_BOUNDARY;
    MAX_REPEAT 1 [RANGE "A" "Z"; RANGE "a" "z"; RANGE "0" "9"; LITERAL ".";
                  LITERAL "_"; LITERAL "%"; LITERAL "+"; LITERAL "-"];
    LIT "@";
    MAX_REPEAT 1 [RANGE "A" "Z"; RANGE "a" "z"; RANGE "0" "9"; LITERAL ".";
                  LITERAL "-"];
    LIT ".";
    MAX_REPEAT 2 [RANGE "A" "Z"; RANGE "a" "z"];
    AT_BOUNDARY ]%char.

(** The lines that the newline-delimited extractor accepts. *)
Definition accepted (line : text) : list text :=
  match re_match email_pattern (strip line) with
  | Some _ => [strip line]
  | None => []
  end.

(** The text of the example: three lines, each ended by a line feed. *)
Definition three_lines : text :=
  str "a@b.com" ++ [LF] ++ str "not-an-email" ++ [LF]
    ++ str "  c@d.org  " ++ [LF].

Local Open Scope Z_scope.

Definition hours (h : Z) : Z := h * 3600000000.

(** A component with a start and nothing else. *)
Definition vevent (start : dt) : component :=
  {| summary := None; dtstart := Some start; dtend := None; location := None;
     description := None; attendee_items := [] |}.

(** The row of such a component, once its start instant is known. *)
Definition started (instant : Z) : Event :=
  {| Summary := None; Start := instant; End := None; Location := None;
     Description := None; Attendees := [] |}.

(** The instant, in UTC, at which a start value is placed. *)
Definition utc_instant (local_utcoffset : Z -> Z) (x : dt) : Z :=
  match x with
  | Date days => days * us_per_day
  | DateTime wall (Some off) => wall - off
  | DateTime wall None => wall - local_utcoffset wall
  end.

(** The date that a start value shows in the calendar, in its own zone. *)
Definition local_date (x : dt) : Z :=
  match x with
  | Date days => days
  | DateTime wall _ => wall / us_per_day
  end.

(** The name that the attendee loop takes from an item, when there is one. *)
Definition display_name (a : attendee) : option text :=
  match a with
  | VCalAddress cn => cn
  | RawText s => Some s
  end.

(** The names of all the items, when each has one. *)
Fixpoint names_of (items : list attendee) : option (list text) :=
  match items with
  | [] => Some []
  | a :: items' =>
      match display_name a, names_of items' with
      | Some n, Some ns => Some (n :: ns)
      | _, _ => None
      end
  end.

(** A component that the loader can turn into a row. *)
Definition well_formed (c : component) : Prop :=
  (VCalAddress None ∉ attendee_items c) /\ dtstart c <> None.

(** The row that belongs to a component. *)
Definition row_of (local_utcoffset : Z -> Z) (c : component) (ev : Event)
  : Prop :=
  Summary ev = summary c
  /\ Location ev = location c
  /\ Description ev = description c
  /\ (exists names, names_of (attendee_items c) = Some names
                    /\ Attendees ev = join (str ", ") names)
  /\ (exists x, dtstart c = Some x /\ Start ev = utc_instant local_utcoffset x)
  /\ End ev = option_map (utc_instant local_utcoffset) (dtend c).

(** A start or end that is a wall-clock reading without a zone. *)
Definition floating (x : option dt) : bool :=
  match x with
  | Some (DateTime _ None) => true
  | _ => false
  end.

(** The three classes of the shared pattern. *)
Definition local_char (c : ascii) : bool :=
  in_set [RANGE "A" "Z"; RANGE "a" "z"; RANGE "0" "9"; LITERAL ".";
          LITERAL "_"; LITERAL "%"; LITERAL "+"; LITERAL "-"]%char c.

Definition domain_char (c : ascii) : bool :=
  in_set [RANGE "A" "Z"; RANGE "a" "z"; RANGE "0" "9"; LITERAL ".";
          LITERAL "-"]%char c.

Definition last_char (c : ascii) : bool :=
  in_set [RANGE "A" "Z"; LITERAL "|"; RANGE "a" "z"]%char c.

(** The form of an address: a local part, "@", a domain, ".", and two or
    more characters of the last class. *)
Definition address_shaped (m : text) : Prop :=
  exists l d t,
    m = l ++ "@"%char :: d ++ "."%char :: t
    /\ l <> [] /\ Forall (fun c => local_char c = true) l
    /\ d <> [] /\ Forall (fun c => domain_char c = true) d
    /\ (2 <= length t)%nat /\ Forall (fun c => last_char c = true) t.

(** How often a character occurs in a text. *)
Definition occurrences (c : ascii) (s : text) : nat :=
  length (List.filter (Ascii.eqb c) s).

(** A text that does not start with white space. *)
Definition no_lead (s : text) : Prop :=
  match s with
  | [] => True
  | c :: _ => is_space c = false
  end.

(** What holds of the Emails field of every row that the cleaner emits. *)
Definition clean_field (s : text) : Prop :=
  (","%char ∉ s) /\ strip s = s.

(** A text whose line feeds are written as [eol]. *)
Definition with_eol (eol : text) (s : text) : text :=
  flat_map (fun c => if Ascii.eqb c LF then eol else [c]) s.

(** Where an address of the final collection comes from: a match in the
    attendee text of a loaded event, a match in what is read from a
    name-and-address file, or a stripped line of the newline-delimited file
    on which the pattern matches at position 0. *)
Definition found (df : list Event) (files : list text)
    (newline_file : option text) (x : text) : Prop :=
  (exists ev, ev ∈ df /\ x ∈ findall email_pattern (Attendees ev))
  \/ (exists raw, raw ∈ files /\ x ∈ findall email_pattern (read raw))
  \/ (exists raw line n,
        newline_file = Some raw /\ line ∈ lines (read raw)
        /\ x = strip line /\ re_match email_pattern x = Some n).

(** A component with a start and one attendee given as plain text. *)
Definition invited (start : dt) (who : string) : component :=
  {| summary := None; dtstart := Some start; dtend := None; location := None;
     description := None; attendee_items := [RawText (str who)] |}.

(** * Properties *)

Local Open Scope nat_scope.

(** ** The engine against a declarative reading of the operations *)

Lemma try_down_Some n min tail r :
  try_down n min tail = Some r ->
  exists k, min <= k <= n /\ tail k = Some r.
Proof.
  induction n as [|n IH]; simpl; intros H.
  - destruct (0 <? min) eqn:E; [discriminate|].
    apply Nat.ltb_ge in E.
    destruct (tail 0) eqn:T; [|discriminate].
    exists 0. split; [lia | congruence].
  - destruct (S n <? min) eqn:E; [discriminate|].
    apply Nat.ltb_ge in E.
    destruct (tail (S n)) eqn:T.
    + exists (S n). split; [lia | congruence].
    + destruct (IH H) as (k & Hk & Hr). exists k. split; [lia | exact Hr].
Qed.

Lemma run_length_take items s k :
  k <= run_length items s ->
  k <= length s /\ Forall (fun c => in_set items c = true) (take k s).
Proof.
  revert k. induction s as [|c s IH]; intros k Hk; simpl in *.
  - assert (k = 0) by lia. subst. split; [lia | constructor].
  - destruct k as [|k]; [split; [lia | constructor]|].
    destruct (in_set items c) eqn:E; [|lia].
    destruct (IH k) as [Hl Hf]; [lia|].
    split; [lia|]. simpl. constructor; assumption.
Qed.

Lemma last_or_cons prev c m : last_or prev (c :: m) = last_or (Some c) m.
Proof.
  unfold last_or. destruct m as [|d m]; [reflexivity|].
  change (last (c :: d :: m)) with (last (d :: m)).
  destruct (last (d :: m)) eqn:E; [reflexivity|].
  apply last_None in E. discriminate.
Qed.

Lemma prev_after_take k prev s :
  k <= length s -> prev_after k prev s = last_or prev (take k s).
Proof.
  revert prev s. induction k as [|k IH]; intros prev s Hk.
  - destruct s; reflexivity.
  - destruct s as [|c s]; simpl in *; [lia|].
    rewrite IH by lia. symmetry. apply last_or_cons.
Qed.

Lemma last_or_app prev a b : last_or prev (a ++ b) = last_or (last_or prev a) b.
Proof.
  revert prev. induction a as [|c a IH]; intros prev; simpl.
  - reflexivity.
  - rewrite !last_or_cons. apply IH.
Qed.

(** What the engine returns is a match in the declarative sense, and the
    returned length is the length of the matched prefix. *)
Lemma match_ops_sound ops must_advance consumed prev s n :
  match_ops ops must_advance consumed prev s = Some n ->
  exists m rest,
    s = m ++ rest /\ n = consumed + length m /\ matches ops prev m rest.
Proof.
  revert consumed prev s.
  induction ops as [|o ops IH]; intros consumed prev s H; simpl in H.
  - exists [], s. destruct (must_advance && (consumed =? 0)); [discriminate|].
    injection H as <-. repeat split; [simpl; lia | constructor].
  - destruct o as [|c|items|min items].
    + destruct (at_boundary prev s) eqn:B; [|discriminate].
      destruct (IH _ _ _ H) as (m & rest & -> & -> & Hm).
      exists m, rest. repeat split. constructor; assumption.
    + destruct s as [|x s]; [discriminate|].
      destruct (Ascii.eqb x c) eqn:E; [|discriminate].
      apply Ascii.eqb_eq in E. subst x.
      destruct (IH _ _ _ H) as (m & rest & -> & -> & Hm).
      exists (c :: m), rest. repeat split; [simpl; lia | constructor; assumption].
    + destruct s as [|x s]; [discriminate|].
      destruct (in_set items x) eqn:E; [|discriminate].
      destruct (IH _ _ _ H) as (m & rest & -> & -> & Hm).
      exists (x :: m), rest.
      repeat split; [simpl; lia | constructor; assumption].
    + apply try_down_Some in H. destruct H as (k & Hk & H).
      destruct (run_length_take items s k) as [Hl Hf]; [lia|].
      destruct (IH _ _ _ H) as (m & rest & Hs & -> & Hm).
      exists (take k s ++ m), rest.
      assert (Hlen : length (take k s) = k) by (rewrite length_take; lia).
      repeat split.
      * rewrite <- (take_drop k s) at 1. rewrite Hs. apply app_assoc.
      * rewrite length_app, Hlen. lia.
      * constructor; [lia | assumption |].
        rewrite <- prev_after_take by lia. assumption.
Qed.

Lemma matches_alphabet ops prev m rest :
  matches ops prev m rest -> Forall (fun c => alphabet ops c = true) m.
Proof.
  unfold alphabet.
  induction 1 as [| | c ops prev m rest _ IH | items x ops prev m rest Hx _ IH
                 | min items ops prev r m rest _ Hr _ IH]; simpl.
  - constructor.
  - assumption.
  - constructor.
    + rewrite Ascii.eqb_refl. reflexivity.
    + eapply Forall_impl; [exact IH|]. simpl. intros a ->. apply orb_true_r.
  - constructor.
    + rewrite Hx. reflexivity.
    + eapply Forall_impl; [exact IH|]. simpl. intros a ->. apply orb_true_r.
  - apply Forall_app. split.
    + eapply Forall_impl; [exact Hr|]. simpl. intros a ->. reflexivity.
    + eapply Forall_impl; [exact IH|]. simpl. intros a ->. apply orb_true_r.
Qed.

(** Passing the characters of a match one by one is resuming after it. *)
Lemma scan_skip pattern prev s k :
  k <= length s ->
  scan pattern prev s k = scan pattern (prev_after k prev s) (drop k s) 0.
Proof.
  revert prev k. induction s as [|c s IH]; intros prev k Hk; simpl in Hk.
  - assert (k = 0) by lia. subst. reflexivity.
  - destruct k as [|k]; [reflexivity|].
    simpl scan at 1. rewrite IH by lia. reflexivity.
Qed.

Lemma scan_match pattern prev c s n :
  n <= length s ->
  scan pattern (Some c) s n
  = scan pattern (last_or prev (take (S n) (c :: s))) (drop (S n) (c :: s)) 0.
Proof.
  intros Hn. rewrite scan_skip by assumption.
  rewrite prev_after_take by assumption.
  simpl take. rewrite last_or_cons. reflexivity.
Qed.

Lemma try_down_complete n min tail k :
  min <= k <= n -> is_Some (tail k) -> is_Some (try_down n min tail).
Proof.
  intros Hk Ht. induction n as [|n IH]; simpl.
  - assert (k = 0) by lia. subst k.
    destruct (0 <? min) eqn:E; [apply Nat.ltb_lt in E; lia|].
    destruct Ht as [r ->]. eauto.
  - destruct (S n <? min) eqn:E; [apply Nat.ltb_lt in E; lia|].
    destruct (tail (S n)) eqn:T; [eauto|].
    apply IH. destruct (decide (k = S n)) as [->|]; [|lia].
    rewrite T in Ht. destruct Ht; discriminate.
Qed.

Lemma run_length_app items r s :
  Forall (fun c => in_set items c = true) r ->
  length r <= run_length items (r ++ s).
Proof.
  induction 1 as [|c r Hc _ IH]; simpl; [lia|]. rewrite Hc. lia.
Qed.

(** The engine finds a match wherever the declarative reading has one. *)
Lemma match_ops_complete ops prev m rest :
  matches ops prev m rest ->
  forall consumed, is_Some (match_ops ops false consumed prev (m ++ rest)).
Proof.
  induction 1 as [| ops prev m rest Hb _ IH | c ops prev m rest _ IH
                 | items x ops prev m rest Hx _ IH
                 | min items ops prev r m rest Hmin Hr _ IH];
    intros consumed; simpl.
  - eauto.
  - rewrite Hb. apply IH.
  - rewrite Ascii.eqb_refl. apply IH.
  - rewrite Hx. apply IH.
  - apply (try_down_complete _ _ _ (length r)).
    + split; [exact Hmin|]. rewrite <- app_assoc. apply run_length_app, Hr.
    + rewrite prev_after_take by (rewrite !length_app; lia).
      rewrite <- app_assoc, take_app_length, drop_app_length. apply IH.
Qed.

(** [findall] reports the matches from left to right, none overlapping
    another, and passes over a position only when no match starts there. *)
Lemma scan_tiles pattern s :
  (forall prev rest, ~ matches pattern prev [] rest) ->
  forall prev, tiles pattern prev s (scan pattern prev s 0).
Proof.
  intros Hne.
  remember (length s) as len eqn:Hlen.
  revert s Hlen. induction len as [len IH] using lt_wf_ind.
  intros s -> prev.
  destruct s as [|c s'].
  - simpl. destruct (match_ops pattern false 0 prev []) eqn:E; [|constructor].
    destruct (match_ops_sound _ _ _ _ _ _ E) as (m & rest & Hs & _ & Hm).
    destruct m; [|discriminate]. destruct (Hne _ _ Hm).
  - simpl scan.
    destruct (match_ops pattern false 0 prev (c :: s')) as [[|n]|] eqn:E.
    + destruct (match_ops_sound _ _ _ _ _ _ E) as (m & rest & Hs & Hn & Hm).
      destruct m; [|discriminate]. destruct (Hne _ _ Hm).
    + destruct (match_ops_sound _ _ _ _ _ _ E) as (m & rest & Hs & Hn & Hm).
      simpl in Hn.
      assert (Hl : n <= length s').
      { apply (f_equal length) in Hs. rewrite length_app in Hs.
        simpl in Hs. lia. }
      rewrite (scan_match pattern prev) by exact Hl.
      assert (Ht : take (S n) (c :: s') = m).
      { rewrite Hs, Hn. apply take_app_length. }
      assert (Hd : drop (S n) (c :: s') = rest).
      { rewrite Hs, Hn. apply drop_app_length. }
      assert (Ht' : c :: take n s' = m) by exact Ht.
      rewrite Ht, Ht', Hd, Hs. constructor.
      * intros ->. discriminate.
      * exact Hm.
      * eapply IH; [|reflexivity].
        apply (f_equal length) in Hs. rewrite length_app in Hs.
        rewrite Hs. lia.
    + constructor.
      * intros m rest Hs Hm.
        destruct (match_ops_complete _ _ _ _ Hm 0) as [r Hr].
        rewrite <- Hs, E in Hr. discriminate.
      * eapply IH; [|reflexivity]. simpl; lia.
Qed.

Lemma tiles_elem pattern prev s ms m :
  tiles pattern prev s ms -> m ∈ ms ->
  exists before after,
    s = before ++ m ++ after
    /\ matches pattern (last_or prev before) m after.
Proof.
  induction 1 as [| prev c s ms _ _ IH | prev m0 rest ms _ Hm _ IH]; intros Hin.
  - inversion Hin.
  - destruct (IH Hin) as (before & after & -> & Hb).
    exists (c :: before), after. split; [reflexivity|].
    rewrite last_or_cons. exact Hb.
  - apply elem_of_cons in Hin. destruct Hin as [-> | Hin].
    + exists [], rest. split; [reflexivity | exact Hm].
    + destruct (IH Hin) as (before & after & -> & Hb).
      exists (m0 ++ before), after. split; [apply app_assoc|].
      rewrite last_or_app. exact Hb.
Qed.

(** ** The shared pattern *)

(** [email_pattern] is the pattern text of the extractors, compiled. *)
Lemma email_pattern_compiled :
  compile "\b[A-Za-z0-9._%+-]+@[A-Za-z0-9.-]+\.[A-Z|a-z]{2,}\b"
  = Some email_pattern.
Proof. vm_compute. reflexivity. Qed.

(** With letters only in the last class, the pattern text compiles to
    [letters_email_pattern]. *)
Lemma letters_email_pattern_compiled :
  compile "\b[A-Za-z0-9._%+-]+@[A-Za-z0-9.-]+\.[A-Za-z]{2,}\b"
  = Some letters_email_pattern.
Proof. vm_compute. reflexivity. Qed.

Lemma email_alphabet c :
  alphabet email_pattern c = true ->
  is_space c = false /\ c <> ","%char.
Proof.
  destruct c as [[] [] [] [] [] [] [] []]; vm_compute; intros H;
    first [discriminate H | split; [reflexivity | discriminate]].
Qed.

Lemma matches_email_nonempty prev m rest :
  matches email_pattern prev m rest -> m <> [].
Proof.
  intros H ->. unfold email_pattern in H.
  inversion H as [| ? ? ? ? _ H1 | | |]; subst.
  inversion H1 as [| | | | ? ? ? ? r m' ? Hlen _ _ Heq]; subst.
  destruct r; simpl in *; [lia | discriminate].
Qed.

Lemma findall_email_tiles s :
  tiles email_pattern None s (findall email_pattern s).
Proof.
  apply scan_tiles. intros prev rest H.
  exact (matches_email_nonempty _ _ _ H eq_refl).
Qed.

(** Every string that [findall] returns was matched where it stands. *)
Lemma findall_email_elem s m :
  m ∈ findall email_pattern s ->
  exists before after,
    s = before ++ m ++ after /\ matches email_pattern (last before) m after.
Proof.
  intros Hin.
  destruct (tiles_elem _ _ _ _ _ (findall_email_tiles s) Hin)
    as (before & after & Hs & Hm).
  exists before, after. split; [exact Hs|].
  unfold last_or in Hm. destruct (last before); exact Hm.
Qed.

Lemma findall_email_plain s m :
  m ∈ findall email_pattern s -> m <> [] /\ plain m.
Proof.
  intros Hin.
  destruct (findall_email_elem _ _ Hin) as (before & after & _ & Hm).
  split; [eapply matches_email_nonempty; exact Hm|].
  eapply Forall_impl; [eapply matches_alphabet; exact Hm|].
  exact email_alphabet.
Qed.

(** ** Joining, splitting and stripping *)

Lemma lstrip_plain m : plain m -> lstrip m = m.
Proof.
  destruct 1 as [|c m [Hc _] _]; simpl; [reflexivity|]. rewrite Hc. reflexivity.
Qed.

Lemma strip_plain m : plain m -> strip m = m.
Proof.
  intros H. unfold strip, rstrip. rewrite (lstrip_plain m H).
  rewrite lstrip_plain; [apply rev_involutive|].
  apply Forall_rev. exact H.
Qed.

Lemma strip_space_plain m : plain m -> strip (" "%char :: m) = m.
Proof.
  intros H. unfold strip. change (lstrip (" "%char :: m)) with (lstrip m).
  apply (strip_plain m H).
Qed.

Lemma split_plain m : plain m -> split "," m = [m].
Proof.
  induction 1 as [|c m [_ Hc] _ IH]; simpl; [reflexivity|].
  apply Ascii.eqb_neq in Hc. rewrite Hc, IH. reflexivity.
Qed.

Lemma split_plain_app m s :
  plain m -> split "," (m ++ ","%char :: s) = m :: split "," s.
Proof.
  induction 1 as [|c m [_ Hc] _ IH]; simpl; [reflexivity|].
  apply Ascii.eqb_neq in Hc. rewrite Hc, IH. reflexivity.
Qed.

Lemma split_join_plain m ms :
  Forall plain (m :: ms) ->
  split "," (join (str ", ") (m :: ms)) = m :: map (cons " "%char) ms.
Proof.
  revert m. induction ms as [|m2 ms IH]; intros m H.
  - simpl. apply split_plain. inversion H; assumption.
  - inversion H as [|? ? Hm Hms]; subst.
    change (join (str ", ") (m :: m2 :: ms))
      with (m ++ ","%char :: " "%char :: join (str ", ") (m2 :: ms)).
    rewrite (split_plain_app _ _ Hm).
    change (split "," (" "%char :: join (str ", ") (m2 :: ms)))
      with (match split "," (join (str ", ") (m2 :: ms)) with
            | p :: ps => (" "%char :: p) :: ps
            | [] => [[" "%char]]
            end).
    rewrite (IH m2 Hms). reflexivity.
Qed.

(** Splitting and stripping undoes the join of plain strings. *)
Lemma strip_split_join ms :
  ms <> [] -> Forall plain ms ->
  map strip (split "," (join (str ", ") ms)) = ms.
Proof.
  destruct ms as [|m ms]; [congruence|]. intros _ H.
  rewrite (split_join_plain m ms H).
  inversion H as [|? ? Hm Hms]; subst. simpl.
  rewrite (strip_plain m Hm). f_equal. clear H Hm.
  induction Hms as [|m2 ms Hm2 _ IH]; simpl; [reflexivity|].
  rewrite (strip_space_plain m2 Hm2), IH. reflexivity.
Qed.

Lemma join_truthy m ms : m <> [] -> truthy (join (str ", ") (m :: ms)) = true.
Proof.
  destruct m; [congruence|]. destruct ms; reflexivity.
Qed.

(** ** clean_and_explode_emails *)

Lemma clean_and_explode_emails_cons r df :
  clean_and_explode_emails (r :: df)
  = exploded r ++ clean_and_explode_emails df.
Proof.
  unfold clean_and_explode_emails, explode, exploded. simpl.
  destruct (truthy (Emails r)); simpl; [|reflexivity].
  rewrite map_app, map_map. reflexivity.
Qed.

Lemma clean_and_explode_emails_flat_map df :
  clean_and_explode_emails df = flat_map exploded df.
Proof.
  induction df as [|r df IH]; [reflexivity|].
  rewrite clean_and_explode_emails_cons, IH. reflexivity.
Qed.

Lemma exploded_extracted e :
  exploded {| event := e;
              Emails := join (str ", ") (findall email_pattern (Attendees e)) |}
  = matched_rows e.
Proof.
  unfold exploded, matched_rows. cbn [Emails event].
  assert (H : Forall (fun m => m <> [] /\ plain m)
                (findall email_pattern (Attendees e))).
  { apply Forall_forall. intros m Hm. eapply findall_email_plain; exact Hm. }
  destruct (findall email_pattern (Attendees e)) as [|m ms] eqn:E;
    [reflexivity|].
  inversion H as [|? ? [Hne _] _]; subst.
  rewrite (join_truthy m ms Hne).
  rewrite <- (strip_split_join (m :: ms)) at 2.
  - rewrite map_map. reflexivity.
  - discriminate.
  - eapply Forall_impl; [exact H|]. simpl. tauto.
Qed.

Lemma pipeline_rows df :
  clean_and_explode_emails (extract_email_addresses df)
  = flat_map matched_rows df.
Proof.
  rewrite clean_and_explode_emails_flat_map. unfold extract_email_addresses.
  induction df as [|e df IH]; [reflexivity|].
  cbn [map flat_map]. rewrite exploded_extracted. f_equal. exact IH.
Qed.

(** ** The calendar pipeline *)

(** C1, as amended.  For every sequence of events, the rows that
    extract_email_addresses followed by clean_and_explode_emails produces are
    exactly the matches of the pattern in each event's attendee text, in
    order: joining them with ", ", splitting on "," and stripping gives the
    matched substrings back.  Each address is therefore not empty, free of
    commas and white space, and matched the pattern where it stands in the
    attendee text, the word boundaries being those of that text. *)
Theorem calendar_addresses_are_matches_in_context (df : list Event) :
  clean_and_explode_emails (extract_email_addresses df)
  = flat_map matched_rows df
  /\ map Emails (clean_and_explode_emails (extract_email_addresses df))
     = flat_map (fun e => findall email_pattern (Attendees e)) df
  /\ (forall e, findall email_pattern (Attendees e) <> [] ->
        map strip
          (split "," (join (str ", ") (findall email_pattern (Attendees e))))
        = findall email_pattern (Attendees e))
  /\ (forall r, r ∈ clean_and_explode_emails (extract_email_addresses df) ->
        event r ∈ df
        /\ Emails r <> [] /\ plain (Emails r)
        /\ exists before after,
             Attendees (event r) = before ++ Emails r ++ after
             /\ matches email_pattern (last before) (Emails r) after).
Proof.
  split; [apply pipeline_rows|]. split; [|split].
  - rewrite pipeline_rows. induction df as [|e df IH]; [reflexivity|].
    simpl. rewrite map_app, IH. unfold matched_rows at 1.
    rewrite map_map. simpl. rewrite map_id. reflexivity.
  - intros e Hne. apply strip_split_join; [exact Hne|].
    apply Forall_forall. intros m Hm.
    apply (findall_email_plain (Attendees e) m Hm).
  - intros r. rewrite pipeline_rows. intros Hr.
    apply list_elem_of_In, in_flat_map in Hr. destruct Hr as (e & He & Hr).
    unfold matched_rows in Hr. apply in_map_iff in Hr.
    destruct Hr as (m & <- & Hm). simpl.
    apply list_elem_of_In in He, Hm.
    destruct (findall_email_plain _ _ Hm) as [Hne Hp].
    repeat split; try assumption.
    apply findall_email_elem, Hm.
Qed.

(** C1, as stated, fails: two addresses that touch in the attendee text
    are both matched there, and the second one, taken alone, does not match
    the pattern at its start. *)
Lemma calendar_address_alone_does_not_match :
  map Emails
    (clean_and_explode_emails
       (extract_email_addresses
          [attended "john@example.com-jane@example.org"]))
  = [str "john@example.com"; str "-jane@example.org"]
  /\ re_match email_pattern (str "-jane@example.org") = None
  /\ findall email_pattern (str "-jane@example.org")
     = [str "jane@example.org"].
Proof. vm_compute. repeat split. Qed.

(** ** extract_email_addresses *)

(** C5.  On the attendee text "a@b.co|c@d.org" the Emails field is
    "a@b.co|c": the last class of the pattern in the code holds the vertical
    bar, so the match runs through it.  With two-or-more letters there, the
    field would be "a@b.co, c@d.org". *)
Theorem extract_email_addresses_takes_bar_as_letter :
  map Emails (extract_email_addresses [attended "a@b.co|c@d.org"])
  = [str "a@b.co|c"]
  /\ join (str ", ") (findall letters_email_pattern (str "a@b.co|c@d.org"))
     = str "a@b.co, c@d.org"
  /\ in_set [RANGE "A" "Z"; LITERAL "|"; RANGE "a" "z"] "|" = true.
Proof. vm_compute. repeat split. Qed.

(** What extract_email_addresses does with the pattern of the code: the
    events are kept in order and each Emails field is the join of the
    matches, which tile the attendee text from left to right. *)
Lemma extract_email_addresses_rows df :
  map event (extract_email_addresses df) = df
  /\ Forall (fun r =>
       Emails r = join (str ", ") (findall email_pattern (Attendees (event r)))
       /\ tiles email_pattern None (Attendees (event r))
            (findall email_pattern (Attendees (event r))))
       (extract_email_addresses df).
Proof.
  unfold extract_email_addresses. split.
  - rewrite map_map. apply map_id.
  - apply Forall_forall. intros r Hr.
    apply list_elem_of_In, in_map_iff in Hr. destruct Hr as (e & <- & _).
    split; [reflexivity | apply findall_email_tiles].
Qed.

(** ** The cleaner *)

Lemma split_nonempty sep s : split sep s <> [].
Proof.
  destruct s as [|c s]; simpl; [discriminate|].
  destruct (Ascii.eqb c sep); [discriminate|].
  destruct (split sep s); discriminate.
Qed.

(** The pieces of a split, joined by the separator, are the text again. *)
Lemma join_split sep s : join [sep] (split sep s) = s.
Proof.
  induction s as [|c s IH]; [reflexivity|]. simpl.
  pose proof (split_nonempty sep s) as Hne.
  destruct (Ascii.eqb c sep) eqn:E.
  - apply Ascii.eqb_eq in E. subst c.
    destruct (split sep s) as [|p ps]; [congruence|].
    change (join [sep] ([] :: p :: ps)) with (sep :: join [sep] (p :: ps)).
    rewrite IH. reflexivity.
  - destruct (split sep s) as [|p ps]; [congruence|].
    destruct ps as [|q ps]; simpl in *; rewrite <- IH; reflexivity.
Qed.

(** There is one piece more than there are separators, and no separator is
    left in a piece. *)
Lemma split_pieces sep s :
  length (split sep s) = S (length (List.filter (Ascii.eqb sep) s))
  /\ Forall (fun p => sep ∉ p) (split sep s).
Proof.
  induction s as [|c s [IHl IHf]]; simpl.
  - split; [reflexivity|]. repeat constructor. apply not_elem_of_nil.
  - rewrite (Ascii.eqb_sym sep c). destruct (Ascii.eqb c sep) eqn:E; simpl.
    + split; [rewrite IHl; reflexivity|].
      constructor; [apply not_elem_of_nil | exact IHf].
    + apply Ascii.eqb_neq in E.
      destruct (split sep s) as [|p ps]; [discriminate|].
      split; [exact IHl|]. inversion IHf; subst.
      constructor; [|assumption].
      rewrite not_elem_of_cons. split; [congruence | assumption].
Qed.

(** C6.  clean_and_explode_emails drops the records whose Emails field is
    empty and turns every other record into one record for each
    comma-separated piece of its Emails field, stripped, the event kept; a
    record with Emails "a@b.com, c@d.org" becomes the two records "a@b.com"
    and "c@d.org". *)
Theorem clean_and_explode_emails_rows :
  (forall df,
     clean_and_explode_emails df
     = flat_map
         (fun r => map (fun p => {| event := event r; Emails := strip p |})
                       (split "," (Emails r)))
         (List.filter (fun r => bool_decide (Emails r <> [])) df))
  /\ (forall s,
        join [","%char] (split "," s) = s
        /\ length (split "," s) = S (length (List.filter (Ascii.eqb ",") s))
        /\ Forall (fun p => ","%char ∉ p) (split "," s))
  /\ (forall e,
        clean_and_explode_emails
          [ {| event := e; Emails := str "a@b.com, c@d.org" |} ]
        = [ {| event := e; Emails := str "a@b.com" |};
            {| event := e; Emails := str "c@d.org" |} ])
  /\ (forall e, clean_and_explode_emails [ {| event := e; Emails := [] |} ] = []).
Proof.
  split; [|split; [|split]].
  - intros df. rewrite clean_and_explode_emails_flat_map.
    induction df as [|r df IH]; [reflexivity|].
    cbn [flat_map List.filter]. rewrite IH. unfold exploded at 1.
    destruct (Emails r) eqn:E; [reflexivity|].
    cbn [truthy]. rewrite bool_decide_true by discriminate.
    cbn [flat_map]. rewrite E. reflexivity.
  - intros s. split; [apply join_split | apply split_pieces].
  - intros e. reflexivity.
  - intros e. reflexivity.
Qed.

(** ** The text-file extractors *)

Lemma fold_left_flat_map {A B} (body : list B -> A -> list B)
    (g : A -> list B) :
  (forall acc x, body acc x = acc ++ g x) ->
  forall l acc, fold_left body l acc = acc ++ flat_map g l.
Proof.
  intros Hbody l. induction l as [|x l IH]; intros acc; simpl.
  - symmetry. apply app_nil_r.
  - rewrite IH, Hbody. symmetry. apply app_assoc.
Qed.

Lemma extract_emails_from_newline_separated_text_flat_map raw :
  extract_emails_from_newline_separated_text raw
  = flat_map accepted (lines (read raw)).
Proof.
  unfold extract_emails_from_newline_separated_text.
  rewrite (fold_left_flat_map _ accepted); [reflexivity|].
  intros acc line. unfold accepted.
  destruct (re_match email_pattern (strip line));
    [reflexivity | symmetry; apply app_nil_r].
Qed.

(** C2.  The newline-delimited extractor returns, in line order, the
    stripped lines on which the pattern matches at position 0; every other
    line is passed over and no input makes it fail.  The three lines
    "a@b.com", "not-an-email" and "  c@d.org  " give "a@b.com" and
    "c@d.org". *)
Theorem newline_extractor_accepts_lines_matching_at_start :
  (forall raw,
     extract_emails_from_newline_separated_text raw
     = List.filter
         (fun email => bool_decide (re_match email_pattern email <> None))
         (map strip (lines (read raw))))
  /\ (forall raw email,
        email ∈ extract_emails_from_newline_separated_text raw
        <-> exists line, line ∈ lines (read raw) /\ email = strip line
              /\ exists n, re_match email_pattern email = Some n)
  /\ lines (read three_lines)
     = [str "a@b.com" ++ [LF]; str "not-an-email" ++ [LF];
        str "  c@d.org  " ++ [LF]]
  /\ extract_emails_from_newline_separated_text three_lines
     = [str "a@b.com"; str "c@d.org"].
Proof.
  assert (Hfilter : forall raw,
     extract_emails_from_newline_separated_text raw
     = List.filter
         (fun email => bool_decide (re_match email_pattern email <> None))
         (map strip (lines (read raw)))).
  { intros raw. rewrite extract_emails_from_newline_separated_text_flat_map.
    induction (lines (read raw)) as [|line ls IH]; [reflexivity|].
    cbn [flat_map map List.filter]. rewrite IH. unfold accepted.
    destruct (re_match email_pattern (strip line)) eqn:E.
    - rewrite bool_decide_true by discriminate. reflexivity.
    - rewrite bool_decide_false by congruence. reflexivity. }
  split; [exact Hfilter|]. split; [|split; vm_compute; reflexivity].
  intros raw email. rewrite Hfilter, list_elem_of_In, filter_In, in_map_iff.
  rewrite bool_decide_eq_true. split.
  - intros [(line & <- & Hl) Hm]. exists line.
    apply list_elem_of_In in Hl. repeat split; [exact Hl|].
    destruct (re_match email_pattern (strip line)); [eauto | congruence].
  - intros (line & Hl & -> & n & Hn). apply list_elem_of_In in Hl.
    split; [eauto | congruence].
Qed.

(** C7.  A line whose stripped form starts with a match of the pattern is
    accepted whatever follows the match, and it is the whole stripped line
    that is appended; a file made of that line alone gives exactly it. *)
Theorem newline_extractor_keeps_whole_line (raw line : text) (n : nat) :
  line ∈ lines (read raw) ->
  re_match email_pattern (strip line) = Some n ->
  strip line ∈ extract_emails_from_newline_separated_text raw
  /\ (lines (read raw) = [line] ->
      extract_emails_from_newline_separated_text raw = [strip line]).
Proof.
  intros Hl Hn. rewrite extract_emails_from_newline_separated_text_flat_map.
  split.
  - apply list_elem_of_In, in_flat_map. exists line.
    split; [apply list_elem_of_In, Hl|].
    unfold accepted. rewrite Hn. left. reflexivity.
  - intros ->. simpl. unfold accepted. rewrite Hn. reflexivity.
Qed.

(** The line "a@b.com extra text": the match is its first 7 characters and
    the 18 characters of the line are the output. *)
Lemma newline_extractor_keeps_whole_line_witness :
  re_match email_pattern (str "a@b.com extra text") = Some 7
  /\ str "a@b.com extra text"
       ∈ extract_emails_from_newline_separated_text (str "a@b.com extra text")
  /\ extract_emails_from_newline_separated_text (str "a@b.com extra text")
     = [str "a@b.com extra text"].
Proof.
  split; [vm_compute; reflexivity|].
  destruct (newline_extractor_keeps_whole_line
              (str "a@b.com extra text") (str "a@b.com extra text") 7)
    as [Hin Heq].
  - vm_compute. left.
  - vm_compute. reflexivity.
  - split; [exact Hin | apply Heq; vm_compute; reflexivity].
Defined.

(** C8.  The free-form extractor returns, file after file, the matches of
    the pattern in what is read from each file; the matches of one file are
    found from left to right and do not overlap, and nothing is removed, so
    an address found twice is returned twice.  The content
    "Contact: a@b.com, also c@d.org." gives "a@b.com" and "c@d.org". *)
Theorem extract_emails_from_text_all_matches :
  (forall files,
     extract_emails_from_text files
     = flat_map (fun raw => findall email_pattern (read raw)) files)
  /\ (forall raw,
        tiles email_pattern None (read raw) (findall email_pattern (read raw)))
  /\ extract_emails_from_text [str "Contact: a@b.com, also c@d.org."]
     = [str "a@b.com"; str "c@d.org"]
  /\ extract_emails_from_text [str "a@b.com"; str "x a@b.com"]
     = [str "a@b.com"; str "a@b.com"].
Proof.
  split; [|split; [|split; vm_compute; reflexivity]].
  - intros files. unfold extract_emails_from_text.
    rewrite (fold_left_flat_map _
               (fun raw => findall email_pattern (read raw)));
      [reflexivity|].
    intros acc raw. reflexivity.
  - intros raw. apply findall_email_tiles.
Qed.

(** ** The calendar loader *)

Local Open Scope Z_scope.

Lemma to_datetime_utc_convert tz x :
  to_datetime_utc (convert tz x) = utc_instant tz x.
Proof.
  destruct x as [days | wall [off|]]; simpl; lia.
Qed.

Lemma attendee_loop items : forall acc,
  (exists names, for_each items attendee_name acc = Ok (acc ++ names))
  \/ for_each items attendee_name acc = Raise (KeyError "CN").
Proof.
  induction items as [|a items IH]; intros acc; simpl.
  - left. exists []. rewrite app_nil_r. reflexivity.
  - destruct a as [[cn|]|s]; simpl; [| right; reflexivity |].
    + destruct (IH (acc ++ [cn])) as [[names ->] | ->]; [left | right; reflexivity].
      exists (cn :: names). rewrite <- app_assoc. reflexivity.
    + destruct (IH (acc ++ [s])) as [[names ->] | ->]; [left | right; reflexivity].
      exists (s :: names). rewrite <- app_assoc. reflexivity.
Qed.

(** One turn of the loop appends one dictionary, whose start is the
    converted DTSTART, or raises for a missing CN or DTSTART. *)
Lemma add_event_cases tz events c :
  (exists d x, add_event tz events c = Ok (events ++ [d])
               /\ dtstart c = Some x /\ d_Start d = convert tz x)
  \/ add_event tz events c = Raise (KeyError "CN")
  \/ add_event tz events c = Raise (AttributeError "dt").
Proof.
  unfold add_event.
  destruct (attendee_loop (attendee_items c) []) as [[names ->] | ->]; simpl;
    [|right; left; reflexivity].
  destruct (dtstart c) as [x|]; [|right; right; reflexivity].
  left. eexists _, x. repeat split.
Qed.

Lemma component_loop tz gcal : forall acc,
  (exists ds, for_each gcal (add_event tz) acc = Ok (acc ++ ds)
              /\ Forall2 (fun c d => exists x, dtstart c = Some x
                                      /\ d_Start d = convert tz x) gcal ds)
  \/ for_each gcal (add_event tz) acc = Raise (KeyError "CN")
  \/ for_each gcal (add_event tz) acc = Raise (AttributeError "dt").
Proof.
  induction gcal as [|c gcal IH]; intros acc; simpl.
  - left. exists []. rewrite app_nil_r. split; [reflexivity | constructor].
  - destruct (add_event_cases tz acc c) as [(d & x & -> & Hx & Hd) | [-> | ->]];
      simpl; [|right; left; reflexivity | right; right; reflexivity].
    destruct (IH (acc ++ [d])) as [(ds & -> & Hds) | [-> | ->]];
      [left | right; left; reflexivity | right; right; reflexivity].
    exists (d :: ds). rewrite <- app_assoc. split; [reflexivity|].
    constructor; [eauto | exact Hds].
Qed.

(** C3, as amended.  With both bounds given, ics_to_dataframe fails as it
    does without bounds, or keeps, in order, exactly the events whose start
    instant, normalised to UTC, lies in [start, end).  That instant is
    midnight UTC for a date-only start, the UTC time of an aware start, and
    the UTC time, by the zone of the process, of a start without zone.  With
    the bounds 2023-08-01 and 2024-01-01, of the all-day events of
    2023-07-31, 2023-08-01, 2023-12-31 and 2024-01-01 the second and the
    third are kept. *)
Theorem ics_to_dataframe_filters_on_utc_start :
  (forall tz gcal s e,
     ics_to_dataframe tz gcal (Some s) (Some e)
     = (df <-- ics_to_dataframe tz gcal None None ;;
        Ok (List.filter (in_range s e) df)))
  /\ (forall s e df ev,
        ev ∈ List.filter (in_range s e) df
        <-> ev ∈ df /\ s <= Start ev < e)
  /\ (forall tz gcal df,
        ics_to_dataframe tz gcal None None = Ok df ->
        Forall2 (fun c ev => exists x, dtstart c = Some x
                               /\ Start ev = utc_instant tz x) gcal df)
  /\ (forall tz,
        ics_to_dataframe tz
          [vevent (Date (date 2023 7 31)); vevent (Date (date 2023 8 1));
           vevent (Date (date 2023 12 31)); vevent (Date (date 2024 1 1))]
          (Some (datetime 2023 8 1 0 0)) (Some (datetime 2024 1 1 0 0))
        = Ok [started (datetime 2023 8 1 0 0);
              started (datetime 2023 12 31 0 0)]).
Proof.
  split; [|split; [|split]].
  - intros tz gcal s e. unfold ics_to_dataframe.
    destruct (for_each gcal (add_event tz) []) as [[|d ds]|err]; reflexivity.
  - intros s e df ev. rewrite !list_elem_of_In, filter_In. unfold in_range.
    rewrite andb_true_iff, Z.leb_le, Z.ltb_lt. reflexivity.
  - intros tz gcal df. unfold ics_to_dataframe.
    destruct (component_loop tz gcal []) as [(ds & -> & Hds) | [-> | ->]];
      [|discriminate | discriminate].
    assert (Hrows : Forall2 (fun c ev => exists x, dtstart c = Some x
                               /\ Start ev = utc_instant tz x)
                      gcal (map row ds)).
    { induction Hds as [|c d gcal ds (x & Hx & Hd) _ IH]; simpl; constructor.
      - exists x. split; [exact Hx|]. simpl.
        rewrite Hd. apply to_datetime_utc_convert.
      - exact IH. }
    simpl. destruct ds as [|d ds]; [discriminate|].
    intros [= <-]. exact Hrows.
  - intros tz. vm_compute. reflexivity.
Qed.

(** C3, as stated, fails: an event that starts on 2023-07-31 at 20:00 in a
    zone five hours behind UTC shows the date 2023-07-31 in the calendar,
    outside the bounds 2023-08-01 and 2024-01-01, and is kept, its start
    being 2023-08-01 01:00 in UTC. *)
Lemma date_filter_keeps_event_of_the_day_before :
  local_date (DateTime (datetime 2023 7 31 20 0) (Some (hours (-5))))
  = date 2023 7 31
  /\ date 2023 7 31 < date 2023 8 1
  /\ ics_to_dataframe (fun _ => 0)
       [vevent (DateTime (datetime 2023 7 31 20 0) (Some (hours (-5))))]
       (Some (datetime 2023 8 1 0 0)) (Some (datetime 2024 1 1 0 0))
     = Ok [started (datetime 2023 8 1 1 0)].
Proof. vm_compute. repeat split. Qed.

(** C4.  A start without zone, 2023-08-01 10:00, read by a process two
    hours ahead of UTC: the loader shifts it to 08:00 UTC, although it
    carries no timezone information.  An aware value is converted and a
    date is left as it is. *)
Theorem loader_shifts_start_without_zone :
  ics_to_dataframe (fun _ => hours 2)
    [vevent (DateTime (datetime 2023 8 1 10 0) None)] None None
  = Ok [started (datetime 2023 8 1 8 0)]
  /\ convert (fun _ => hours 2) (DateTime (datetime 2023 8 1 10 0) None)
     = DateTime (datetime 2023 8 1 8 0) (Some 0)
  /\ (forall tz wall off,
        convert tz (DateTime wall (Some off)) = DateTime (wall - off) (Some 0))
  /\ (forall tz days, convert tz (Date days) = Date days).
Proof.
  split; [vm_compute; reflexivity|]. split; [vm_compute; reflexivity|].
  split; reflexivity.
Qed.

(** C10.  On a calendar without any VEVENT component ics_to_dataframe
    raises the error of the missing Start column, whatever the bounds, and
    returns no empty sequence; it is the only input on which that error is
    raised. *)
Theorem ics_to_dataframe_without_event_raises :
  (forall tz s e, ics_to_dataframe tz [] s e = Raise (KeyError "Start"))
  /\ (forall tz gcal s e,
        ics_to_dataframe tz gcal s e = Raise (KeyError "Start") <-> gcal = [])
  /\ (forall tz gcal df,
        ics_to_dataframe tz gcal None None = Ok df ->
        df <> [] /\ length df = length gcal).
Proof.
  split; [reflexivity|]. split.
  - intros tz gcal s e. split; [|intros ->; reflexivity].
    unfold ics_to_dataframe.
    destruct (component_loop tz gcal []) as [(ds & -> & Hds) | [-> | ->]];
      [|discriminate | discriminate].
    simpl. destruct ds as [|d ds].
    + intros _. inversion Hds. reflexivity.
    + destruct s, e; discriminate.
  - intros tz gcal df. unfold ics_to_dataframe.
    destruct (component_loop tz gcal []) as [(ds & -> & Hds) | [-> | ->]];
      [|discriminate | discriminate].
    apply Forall2_length in Hds.
    simpl. destruct ds as [|d ds]; [discriminate|].
    intros [= <-]. split; [discriminate|].
    rewrite Hds. simpl. rewrite length_map. reflexivity.
Qed.

(** ** Merge and deduplicate *)

(** C9.  The merge is the set of the strings of the three lists: a string
    is in it exactly when it is in one of them, and its elements are listed
    without repetition.  Merging the elements of a set with themselves gives
    the set again, and so does merging the result of a merge.  The lists
    {e@f.com}, {a@b.com} and {a@b.com, c@d.org} merge into the three
    addresses a@b.com, c@d.org and e@f.com. *)
Theorem merge_is_idempotent_union :
  (forall a b c x, x ∈ merge a b c <-> x ∈ a \/ x ∈ b \/ x ∈ c)
  /\ (forall a b c, NoDup (elements (merge a b c)))
  /\ (forall s : gset text, merge (elements s) (elements s) [] = s)
  /\ (forall a b c, merge (elements (merge a b c)) [] [] = merge a b c)
  /\ merge [str "e@f.com"] [str "a@b.com"] [str "a@b.com"; str "c@d.org"]
     = {[ str "a@b.com"; str "c@d.org"; str "e@f.com" ]}
  /\ size (merge [str "e@f.com"] [str "a@b.com"]
             [str "a@b.com"; str "c@d.org"]) = 3%nat.
Proof.
  assert (Hin : forall a b c x, x ∈ merge a b c <-> x ∈ a \/ x ∈ b \/ x ∈ c).
  { intros a b c x. unfold merge.
    rewrite elem_of_list_to_set, !elem_of_app. reflexivity. }
  assert (Hex : merge [str "e@f.com"] [str "a@b.com"]
                  [str "a@b.com"; str "c@d.org"]
                = {[ str "a@b.com"; str "c@d.org"; str "e@f.com" ]}).
  { apply set_eq. intros x. rewrite Hin.
    rewrite !elem_of_union, !elem_of_singleton.
    rewrite !elem_of_cons, !elem_of_nil. tauto. }
  split; [exact Hin|]. split; [intros; apply NoDup_elements|].
  split; [|split; [|split]].
  - intros s. apply set_eq. intros x. rewrite Hin, elem_of_elements.
    rewrite elem_of_nil. tauto.
  - intros a b c. apply set_eq. intros x.
    rewrite (Hin (elements _)), elem_of_elements, elem_of_nil. tauto.
  - exact Hex.
  - rewrite Hex. rewrite !size_union, !size_singleton; [reflexivity | |].
    + apply disjoint_singleton_l. rewrite elem_of_singleton. discriminate.
    + apply disjoint_singleton_r. rewrite elem_of_union, !elem_of_singleton.
      intros [H | H]; discriminate H.
Qed.


(** * Further properties *)

(** ** The loader: errors and rows *)

Lemma attendee_loop_names items : forall acc,
  for_each items attendee_name acc
  = match names_of items with
    | Some names => Ok (acc ++ names)
    | None => Raise (KeyError "CN")
    end.
Proof.
  induction items as [|a items IH]; intros acc; simpl.
  - rewrite app_nil_r. reflexivity.
  - destruct a as [[cn|]|s]; simpl; [| reflexivity |].
    + rewrite IH. destruct (names_of items); [|reflexivity].
      rewrite <- app_assoc. reflexivity.
    + rewrite IH. destruct (names_of items); [|reflexivity].
      rewrite <- app_assoc. reflexivity.
Qed.

Lemma names_of_None items :
  names_of items = None <-> VCalAddress None ∈ items.
Proof.
  induction items as [|a items IH]; simpl.
  - split; [discriminate | intros H; inversion H].
  - rewrite elem_of_cons. destruct a as [[cn|]|s]; simpl.
    + destruct (names_of items); split; try discriminate.
      * intros [H | H]; [discriminate | apply IH in H; discriminate].
      * intros _. right. apply IH. reflexivity.
      * reflexivity.
    + split; [intros _; left; reflexivity | reflexivity].
    + destruct (names_of items); split; try discriminate.
      * intros [H | H]; [discriminate | apply IH in H; discriminate].
      * intros _. right. apply IH. reflexivity.
      * reflexivity.
Qed.

Lemma add_event_well_formed tz events c :
  well_formed c ->
  exists d, add_event tz events c = Ok (events ++ [d]) /\ row_of tz c (row d).
Proof.
  intros [Hcn Hstart]. unfold add_event. rewrite attendee_loop_names.
  destruct (names_of (attendee_items c)) as [names|] eqn:En;
    [|apply names_of_None in En; contradiction].
  destruct (dtstart c) as [x|] eqn:Ex; [|congruence].
  simpl. eexists. split; [reflexivity|].
  unfold row_of, row. simpl. rewrite En, Ex.
  repeat split; eauto using to_datetime_utc_convert.
  destruct (dtend c); simpl; [|reflexivity].
  rewrite to_datetime_utc_convert. reflexivity.
Qed.

Lemma add_event_defect tz events c :
  (VCalAddress None ∈ attendee_items c ->
   add_event tz events c = Raise (KeyError "CN"))
  /\ (VCalAddress None ∉ attendee_items c -> dtstart c = None ->
      add_event tz events c = Raise (AttributeError "dt")).
Proof.
  unfold add_event. rewrite attendee_loop_names. split.
  - intros H. apply names_of_None in H. rewrite H. reflexivity.
  - intros H Hs. destruct (names_of (attendee_items c)) eqn:En.
    + simpl. rewrite Hs. reflexivity.
    + apply names_of_None in En. contradiction.
Qed.

Lemma component_loop_well_formed tz gcal : forall acc,
  Forall well_formed gcal ->
  exists ds, for_each gcal (add_event tz) acc = Ok (acc ++ ds)
             /\ Forall2 (fun c d => row_of tz c (row d)) gcal ds.
Proof.
  induction gcal as [|c gcal IH]; intros acc Hwf; simpl.
  - exists []. rewrite app_nil_r. split; [reflexivity | constructor].
  - inversion Hwf as [|? ? Hc Hg]; subst.
    destruct (add_event_well_formed tz acc c Hc) as (d & -> & Hd). simpl.
    destruct (IH (acc ++ [d]) Hg) as (ds & -> & Hds).
    exists (d :: ds). rewrite <- app_assoc. split; [reflexivity|].
    constructor; assumption.
Qed.


Lemma component_loop_Ok tz gcal acc events :
  for_each gcal (add_event tz) acc = Ok events -> Forall well_formed gcal.
Proof.
  revert acc. induction gcal as [|c gcal IH]; intros acc H; [constructor|].
  simpl in H.
  destruct (names_of (attendee_items c)) as [names|] eqn:En.
  2:{ apply names_of_None in En.
      rewrite (proj1 (add_event_defect tz acc c) En) in H. discriminate. }
  assert (Hin : VCalAddress None ∉ attendee_items c).
  { intros Hin. apply names_of_None in Hin. congruence. }
  destruct (dtstart c) as [x|] eqn:Ex.
  - assert (Hc : well_formed c) by (split; [assumption | congruence]).
    destruct (add_event_well_formed tz acc c Hc) as (d & Hd & _).
    rewrite Hd in H. simpl in H. constructor; [exact Hc | eapply IH, H].
  - rewrite (proj2 (add_event_defect tz acc c) Hin Ex) in H. discriminate.
Qed.




Lemma filter_sublist {A} (f : A -> bool) (l : list A) :
  sublist (List.filter f l) l.
Proof.
  induction l as [|x l IH]; simpl; [constructor|].
  destruct (f x); [apply sublist_skip | apply sublist_cons]; exact IH.
Qed.

(** X3.  When ics_to_dataframe returns, its rows are rows of the VEVENTs
    in calendar order, one for each VEVENT unless both bounds are given, a
    part of them otherwise.  The row of a VEVENT copies summary, location
    and description, joins the attendee names (the CN of a vCalAddress, any
    other item as it is) with ", ", and carries the start and the end as UTC
    instants, the end being absent exactly when there is no DTEND. *)
Theorem loader_rows tz gcal s e df :
  ics_to_dataframe tz gcal s e = Ok df ->
  exists rows,
    Forall2 (row_of tz) gcal rows
    /\ sublist df rows
    /\ (s = None \/ e = None -> df = rows)
    /\ forall ev, ev ∈ rows -> (End ev = None <->
         exists c, c ∈ gcal /\ row_of tz c ev /\ dtend c = None).
Proof.
  intros H. unfold ics_to_dataframe in H.
  destruct (for_each gcal (add_event tz) []) as [events|err] eqn:E;
    [|discriminate].
  pose proof (component_loop_Ok _ _ _ _ E) as Hwf.
  destruct (component_loop_well_formed tz gcal [] Hwf) as (ds & E' & Hds).
  rewrite E in E'. injection E' as ->. simpl in H.
  exists (map row ds).
  assert (Hrows : Forall2 (row_of tz) gcal (map row ds)).
  { clear -Hds. induction Hds; simpl; constructor; assumption. }
  split; [exact Hrows|].
  assert (Hdf : sublist df (map row ds)
                /\ (s = None \/ e = None -> df = map row ds)).
  { destruct ds as [|d ds]; [discriminate|].
    destruct s as [s|], e as [e|]; injection H as <-.
    - split; [apply (filter_sublist (in_range s e) (map row (d :: ds)))|].
      intros [Hs | He]; discriminate.
    - split; reflexivity.
    - split; reflexivity.
    - split; reflexivity. }
  split; [apply Hdf|]. split; [apply Hdf|].
  intros ev Hev.
  destruct (proj1 (list_elem_of_lookup _ _) Hev) as [i Hi].
  destruct (Forall2_lookup_r _ _ _ _ _ Hrows Hi) as (c & Hc & Hrow).
  split.
  - intros Hend. exists c. split; [eapply list_elem_of_lookup_2, Hc|].
    split; [exact Hrow|].
    destruct Hrow as (_ & _ & _ & _ & _ & HE). rewrite Hend in HE.
    destruct (dtend c); [discriminate | reflexivity].
  - intros (c' & _ & Hrow' & Hnone).
    destruct Hrow' as (_ & _ & _ & _ & _ & HE). rewrite HE, Hnone. reflexivity.
Qed.

(** A timed event with two attendees and no end. *)
Lemma loader_rows_witness :
  exists rows,
    Forall2 (row_of (fun _ => 0%Z))
      [ {| summary := Some (str "Mini session");
           dtstart := Some (DateTime (datetime 2023 9 2 10 0) (Some (hours 2)));
           dtend := None; location := None; description := None;
           attendee_items := [VCalAddress (Some (str "Ann <ann@x.org>"));
                              RawText (str "bob@y.org")] |} ] rows
    /\ map Attendees rows = [str "Ann <ann@x.org>, bob@y.org"]
    /\ map Start rows = [datetime 2023 9 2 8 0]
    /\ map End rows = [None].
Proof.
  destruct (loader_rows (fun _ => 0%Z)
              [ {| summary := Some (str "Mini session");
                   dtstart := Some (DateTime (datetime 2023 9 2 10 0)
                                             (Some (hours 2)));
                   dtend := None; location := None; description := None;
                   attendee_items := [VCalAddress (Some (str "Ann <ann@x.org>"));
                                      RawText (str "bob@y.org")] |} ]
              None None _ eq_refl) as (rows & Hrows & _ & Heq & _).
  exists rows. split; [exact Hrows|].
  rewrite <- (Heq (or_introl eq_refl)). vm_compute. repeat split.
Defined.

Lemma ics_to_dataframe_bounds tz gcal s e :
  ics_to_dataframe tz gcal (Some s) (Some e)
  = (df <-- ics_to_dataframe tz gcal None None ;;
     Ok (List.filter (in_range s e) df)).
Proof.
  unfold ics_to_dataframe.
  destruct (for_each gcal (add_event tz) []) as [[|d ds]|err]; reflexivity.
Qed.

(** X4.  When the calendar loads and no start lies within the bounds, in
    particular when the end bound is not after the start bound, the loader
    returns a DataFrame without rows, and no error as it does for a calendar
    without VEVENT. *)
Theorem loader_nothing_in_range tz gcal (s e : Z) rows :
  ics_to_dataframe tz gcal None None = Ok rows ->
  (forall ev, ev ∈ rows -> ~ (s <= Start ev < e)%Z) ->
  ics_to_dataframe tz gcal (Some s) (Some e) = Ok [].
Proof.
  intros H Hout.
  rewrite ics_to_dataframe_bounds, H. simpl. f_equal. clear H.
  induction rows as [|ev rows IH]; [reflexivity|]. simpl.
  destruct (in_range s e ev) eqn:Er.
  - exfalso. apply (Hout ev); [left|].
    unfold in_range in Er. apply andb_true_iff in Er.
    rewrite Z.leb_le, Z.ltb_lt in Er. exact Er.
  - apply IH. intros ev' Hev'. apply Hout. right. exact Hev'.
Qed.

(** An all-day event of 2023-07-31 and bounds in the wrong order. *)
Lemma loader_nothing_in_range_witness :
  ics_to_dataframe (fun _ => 0%Z) [vevent (Date (date 2023 7 31))]
    (Some (datetime 2024 1 1 0 0)) (Some (datetime 2023 8 1 0 0))
  = Ok [].
Proof.
  apply (loader_nothing_in_range (fun _ => 0%Z)
           [vevent (Date (date 2023 7 31))]
           (datetime 2024 1 1 0 0) (datetime 2023 8 1 0 0)
           [started (datetime 2023 7 31 0 0)]).
  - vm_compute. reflexivity.
  - intros ev _ [H1 H2].
    assert (Hlt : (datetime 2023 8 1 0 0 < datetime 2024 1 1 0 0)%Z)
      by reflexivity.
    lia.
Defined.

Lemma for_each_ext {A S} (P : A -> Prop) (f g : S -> A -> result S) items :
  Forall P items ->
  (forall s x, P x -> f s x = g s x) ->
  forall s, for_each items f s = for_each items g s.
Proof.
  intros HP Hfg. induction HP as [|x items Hx _ IH]; intros s; simpl.
  - reflexivity.
  - rewrite (Hfg s x Hx). destruct (g s x); simpl; [apply IH | reflexivity].
Qed.

(** X5.  The zone of the process matters only for values without zone:
    when every DTSTART and DTEND of the calendar is a date or an aware
    datetime, ics_to_dataframe gives the same result in every process
    zone. *)
Theorem loader_zone_only_for_floating tz1 tz2 gcal s e :
  Forall (fun c => floating (dtstart c) = false
                   /\ floating (dtend c) = false) gcal ->
  ics_to_dataframe tz1 gcal s e = ics_to_dataframe tz2 gcal s e.
Proof.
  intros H. unfold ics_to_dataframe.
  rewrite (for_each_ext _ (add_event tz1) (add_event tz2) gcal H);
    [reflexivity|].
  intros events c [Hs He]. unfold add_event.
  destruct (for_each (attendee_items c) attendee_name []); [|reflexivity].
  simpl. destruct (dtstart c) as [[ds | ws [os|]]|]; try discriminate;
    destruct (dtend c) as [[de | we [oe|]]|]; try discriminate; reflexivity.
Qed.

(** An aware start and a date as end, read two hours ahead of UTC and in
    UTC. *)
Lemma loader_zone_only_for_floating_witness :
  ics_to_dataframe (fun _ => hours 2)
    [ {| summary := None;
         dtstart := Some (DateTime (datetime 2023 9 2 10 0) (Some (hours 2)));
         dtend := Some (Date (date 2023 9 3));
         location := None; description := None; attendee_items := [] |} ]
    None None
  = ics_to_dataframe (fun _ => 0%Z)
      [ {| summary := None;
           dtstart := Some (DateTime (datetime 2023 9 2 10 0) (Some (hours 2)));
           dtend := Some (Date (date 2023 9 3));
           location := None; description := None; attendee_items := [] |} ]
      None None.
Proof.
  apply loader_zone_only_for_floating.
  repeat constructor.
Defined.

(** ** The form of the addresses *)

Local Open Scope nat_scope.

Ltac invert_matches :=
  repeat match goal with
         | H : matches (_ :: _) _ _ _ |- _ => inversion H; subst; clear H
         | H : matches [] _ _ _ |- _ => inversion H; subst; clear H
         end.

Lemma matches_email_shape prev m rest :
  matches email_pattern prev m rest -> address_shaped m.
Proof.
  intros H. unfold email_pattern in H. invert_matches.
  unfold address_shaped.
  match goal with
  | |- exists l d t, ?a ++ _ :: ?b ++ _ :: ?c ++ [] = _ /\ _ =>
      exists a, b, c
  end.
  rewrite app_nil_r.
  repeat split; try assumption;
    try (intros ->; simpl in *; lia).
Qed.

Lemma email_classes_without_at c :
  local_char c || domain_char c || last_char c = true ->
  Ascii.eqb "@" c = false.
Proof.
  destruct c as [[] [] [] [] [] [] [] []]; vm_compute; intros H;
    first [discriminate H | reflexivity].
Qed.

Lemma occurrences_app c a b :
  occurrences c (a ++ b) = occurrences c a + occurrences c b.
Proof.
  unfold occurrences. rewrite List.filter_app, length_app. reflexivity.
Qed.

Lemma occurrences_none c (p : ascii -> bool) s :
  (forall x, p x = true -> Ascii.eqb c x = false) ->
  Forall (fun x => p x = true) s -> occurrences c s = 0.
Proof.
  intros Hp. unfold occurrences.
  induction 1 as [|x s Hx _ IH]; simpl; [reflexivity|].
  rewrite (Hp x Hx). exact IH.
Qed.

Lemma address_shaped_at m :
  address_shaped m ->
  occurrences "@" m = 1 /\ 6 <= length m /\ "@"%char ∈ m /\ "."%char ∈ m.
Proof.
  intros (l & d & t & -> & Hl & Fl & Hd & Fd & Ht & Ft).
  split; [|split; [|split]].
  - rewrite occurrences_app.
    change (occurrences "@" ("@"%char :: d ++ "."%char :: t))
      with (S (occurrences "@" (d ++ "."%char :: t))).
    rewrite occurrences_app.
    change (occurrences "@" ("."%char :: t)) with (occurrences "@" t).
    rewrite (occurrences_none "@" local_char l),
            (occurrences_none "@" domain_char d),
            (occurrences_none "@" last_char t); try assumption; [reflexivity | | |];
      intros x Hx; apply email_classes_without_at; rewrite Hx;
      rewrite ?orb_true_r; reflexivity.
  - rewrite length_app. simpl. rewrite length_app. simpl.
    destruct l; [congruence|]. destruct d; [congruence|]. simpl. lia.
  - rewrite elem_of_app, elem_of_cons. right. left. reflexivity.
  - rewrite elem_of_app, elem_of_cons, elem_of_app, elem_of_cons.
    right. right. right. left. reflexivity.
Qed.

Lemma findall_email_shaped s m :
  m ∈ findall email_pattern s -> address_shaped m.
Proof.
  intros Hm. destruct (findall_email_elem s m Hm) as (b & a & _ & H).
  eapply matches_email_shape, H.
Qed.

Lemma elem_of_flat_map_findall (files : list text) m :
  m ∈ flat_map (fun raw => findall email_pattern (read raw)) files ->
  exists raw, raw ∈ files /\ m ∈ findall email_pattern (read raw).
Proof.
  intros H. apply list_elem_of_In, in_flat_map in H.
  destruct H as (raw & Hr & Hm). exists raw.
  split; apply list_elem_of_In; assumption.
Qed.

Lemma extract_emails_from_text_flat_map files :
  extract_emails_from_text files
  = flat_map (fun raw => findall email_pattern (read raw)) files.
Proof.
  unfold extract_emails_from_text.
  rewrite (fold_left_flat_map _
             (fun raw => findall email_pattern (read raw)));
    [reflexivity|].
  intros acc raw. reflexivity.
Qed.

(** X6.  Every address that the free-form extractor returns, and every
    address of a row of the calendar pipeline, is a local part, "@", a
    domain, "." and two or more characters of the last class; so it holds
    exactly one "@", at least one "." and at least six characters. *)
Theorem extracted_address_shape (m : text) :
  (exists files, m ∈ extract_emails_from_text files)
  \/ (exists df r,
        r ∈ clean_and_explode_emails (extract_email_addresses df)
        /\ Emails r = m) ->
  address_shaped m
  /\ occurrences "@" m = 1 /\ 6 <= length m /\ "."%char ∈ m.
Proof.
  intros H.
  assert (Hs : address_shaped m).
  { destruct H as [[files H] | (df & r & H & <-)].
    - rewrite extract_emails_from_text_flat_map in H.
      destruct (elem_of_flat_map_findall files m H) as (raw & _ & Hm).
      eapply findall_email_shaped, Hm.
    - rewrite pipeline_rows in H.
      apply list_elem_of_In, in_flat_map in H. destruct H as (e & _ & H).
      unfold matched_rows in H. apply in_map_iff in H.
      destruct H as (m & <- & Hm). simpl.
      eapply findall_email_shaped, list_elem_of_In, Hm. }
  split; [exact Hs|].
  destruct (address_shaped_at m Hs) as (H1 & H2 & _ & H3). auto.
Qed.

(** The address of a file with a name and an address. *)
Lemma extracted_address_shape_witness :
  address_shaped (str "ann.lee@mail.example.org")
  /\ occurrences "@" (str "ann.lee@mail.example.org") = 1
  /\ 6 <= length (str "ann.lee@mail.example.org")
  /\ "."%char ∈ str "ann.lee@mail.example.org".
Proof.
  apply extracted_address_shape. left.
  exists [str "Ann Lee <ann.lee@mail.example.org>"].
  vm_compute. left.
Defined.

(** ** Reading, lines and stripping *)

Lemma read_elem x raw : x ∈ read raw -> x ∈ raw \/ x = LF.
Proof.
  remember (length raw) as n eqn:Hn. revert raw Hn.
  induction n as [n IH] using lt_wf_ind. intros raw -> H.
  destruct raw as [|c raw]; [inversion H|].
  simpl in H. destruct (Ascii.eqb c CR) eqn:Ec.
  - destruct raw as [|d raw].
    + apply list_elem_of_singleton in H. right. exact H.
    + destruct (Ascii.eqb d LF).
      * apply elem_of_cons in H. destruct H as [-> | H]; [right; reflexivity|].
        destruct (IH (length raw) ltac:(simpl; lia) raw eq_refl H) as [H' | H'];
          [left | right; exact H'].
        do 2 right. exact H'.
      * apply elem_of_cons in H. destruct H as [-> | H]; [right; reflexivity|].
        destruct (IH (length (d :: raw)) ltac:(simpl; lia) (d :: raw) eq_refl H)
          as [H' | H']; [left | right; exact H'].
        right. exact H'.
  - apply elem_of_cons in H. destruct H as [-> | H]; [left; left|].
    destruct (IH (length raw) ltac:(simpl; lia) raw eq_refl H) as [H' | H'];
      [left | right; exact H'].
    right. exact H'.
Qed.

Lemma lstrip_elem x s : x ∈ lstrip s -> x ∈ s.
Proof.
  induction s as [|c s IH]; simpl; [trivial|].
  destruct (is_space c); [|trivial]. intros H. right. apply IH, H.
Qed.

Lemma rev_elem (x : ascii) s : x ∈ rev s <-> x ∈ s.
Proof. rewrite !list_elem_of_In. symmetry. apply in_rev. Qed.

Lemma strip_elem x s : x ∈ strip s -> x ∈ s.
Proof.
  unfold strip, rstrip. intros H.
  apply (proj1 (rev_elem _ _)), lstrip_elem in H.
  apply (proj1 (rev_elem _ _)) in H.
  apply lstrip_elem, H.
Qed.

(** The lines, one after the other, are the text. *)
Lemma concat_lines s : concat (lines s) = s.
Proof.
  induction s as [|c s IH]; [reflexivity|]. simpl.
  destruct (Ascii.eqb c LF).
  - simpl. rewrite IH. reflexivity.
  - destruct (lines s) as [|l ls]; simpl in *; rewrite <- IH; reflexivity.
Qed.

Lemma lines_elem x line s : line ∈ lines s -> x ∈ line -> x ∈ s.
Proof.
  intros Hl Hx. rewrite <- (concat_lines s).
  apply list_elem_of_In, in_concat. exists line.
  split; apply list_elem_of_In; assumption.
Qed.

Lemma at_not_in_read raw : "@"%char ∉ raw -> "@"%char ∉ read raw.
Proof.
  intros H Hin. apply read_elem in Hin. destruct Hin as [Hin | Hin];
    [contradiction | discriminate].
Qed.

Lemma findall_email_without_at s :
  "@"%char ∉ s -> findall email_pattern s = [].
Proof.
  intros H. destruct (findall email_pattern s) as [|m ms] eqn:E;
    [reflexivity|].
  assert (Hm : m ∈ findall email_pattern s) by (rewrite E; left).
  destruct (findall_email_elem s m Hm) as (b & a & -> & Hmt).
  destruct (address_shaped_at m (matches_email_shape _ _ _ Hmt))
    as (_ & _ & Hat & _).
  exfalso. apply H. rewrite !elem_of_app. right. left. exact Hat.
Qed.

Lemma re_match_email_at s n :
  re_match email_pattern s = Some n -> "@"%char ∈ s.
Proof.
  intros H. unfold re_match in H.
  destruct (match_ops_sound _ _ _ _ _ _ H) as (m & rest & -> & _ & Hm).
  destruct (address_shaped_at m (matches_email_shape _ _ _ Hm))
    as (_ & _ & Hat & _).
  apply elem_of_app. left. exact Hat.
Qed.

(** X7.  Without an "@" nothing is extracted: files without "@" give the
    free-form extractor an empty list, a file without "@" gives the
    newline-delimited extractor an empty list, and events whose attendee
    texts hold no "@" leave no row after clean_and_explode_emails. *)
Theorem nothing_without_at :
  (forall files,
     Forall (fun raw => "@"%char ∉ raw) files ->
     extract_emails_from_text files = [])
  /\ (forall raw,
        "@"%char ∉ raw -> extract_emails_from_newline_separated_text raw = [])
  /\ (forall df,
        Forall (fun e => "@"%char ∉ Attendees e) df ->
        clean_and_explode_emails (extract_email_addresses df) = []).
Proof.
  split; [|split].
  - intros files H. rewrite extract_emails_from_text_flat_map.
    induction H as [|raw files Hraw _ IH]; [reflexivity|]. simpl.
    rewrite (findall_email_without_at _ (at_not_in_read raw Hraw)). exact IH.
  - intros raw H.
    rewrite extract_emails_from_newline_separated_text_flat_map.
    assert (Hl : forall line, line ∈ lines (read raw) -> accepted line = []).
    { intros line Hline. unfold accepted.
      destruct (re_match email_pattern (strip line)) eqn:E; [|reflexivity].
      exfalso. apply (at_not_in_read raw H).
      eapply lines_elem; [exact Hline|].
      eapply strip_elem, re_match_email_at, E. }
    induction (lines (read raw)) as [|line ls IH]; [reflexivity|].
    simpl. rewrite (Hl line) by left. apply IH.
    intros l Hin. apply Hl. right. exact Hin.
  - intros df H. rewrite pipeline_rows.
    induction H as [|e df He _ IH]; [reflexivity|]. simpl.
    unfold matched_rows at 1. rewrite (findall_email_without_at _ He).
    exact IH.
Qed.

(** Texts without "@" on the three ways in. *)
Lemma nothing_without_at_witness :
  extract_emails_from_text [str "Ann Lee, ann at mail.example.org"] = []
  /\ extract_emails_from_newline_separated_text
       (str "ann" ++ [LF] ++ str "bob.example.org" ++ [LF]) = []
  /\ clean_and_explode_emails
       (extract_email_addresses [attended "Ann Lee, Bob"]) = [].
Proof.
  destruct nothing_without_at as (H1 & H2 & H3).
  split; [|split].
  - apply H1. repeat constructor. vm_compute.
    intros H. apply list_elem_of_In in H. simpl in H.
    repeat (destruct H as [H | H]; [discriminate H|]). exact H.
  - apply H2. vm_compute.
    intros H. apply list_elem_of_In in H. simpl in H.
    repeat (destruct H as [H | H]; [discriminate H|]). exact H.
  - apply H3. repeat constructor. vm_compute.
    intros H. apply list_elem_of_In in H. simpl in H.
    repeat (destruct H as [H | H]; [discriminate H|]). exact H.
Defined.

(** ** The cleaner: what it emits *)

Lemma lstrip_no_lead s : no_lead (lstrip s).
Proof.
  induction s as [|c s IH]; simpl; [exact I|].
  destruct (is_space c) eqn:E; [exact IH | exact E].
Qed.

Lemma no_lead_lstrip s : no_lead s -> lstrip s = s.
Proof.
  destruct s as [|c s]; simpl; [reflexivity|]. intros ->. reflexivity.
Qed.

Lemma lstrip_suffix s : exists p, s = p ++ lstrip s.
Proof.
  induction s as [|c s [p IH]]; simpl; [exists []; reflexivity|].
  destruct (is_space c); [|exists []; reflexivity].
  exists (c :: p). simpl. rewrite <- IH. reflexivity.
Qed.

Lemma no_lead_app_l a b : no_lead (a ++ b) -> a <> [] -> no_lead a.
Proof. destruct a; [congruence | trivial]. Qed.

Lemma strip_idem s : strip (strip s) = strip s.
Proof.
  unfold strip, rstrip.
  set (u := lstrip s). set (v := lstrip (rev u)).
  assert (Hv : lstrip v = v) by apply no_lead_lstrip, lstrip_no_lead.
  assert (Hr : lstrip (rev v) = rev v).
  { apply no_lead_lstrip. destruct v as [|c v'] eqn:Ev; [exact I|].
    destruct (lstrip_suffix (rev u)) as [p Hp]. fold v in Hp. rewrite Ev in Hp.
    apply (f_equal (@rev ascii)) in Hp.
    rewrite rev_involutive, rev_app_distr in Hp.
    apply (no_lead_app_l (rev (c :: v')) (rev p)).
    - rewrite <- Hp. apply lstrip_no_lead.
    - simpl. intros H. apply app_eq_nil in H. destruct H; discriminate. }
  rewrite Hr, rev_involutive, Hv. reflexivity.
Qed.

Lemma split_without_comma s : ","%char ∉ s -> split "," s = [s].
Proof.
  induction s as [|c s IH]; simpl; [reflexivity|]. intros H.
  apply not_elem_of_cons in H. destruct H as [Hc Hs].
  assert (E : Ascii.eqb c "," = false) by (apply Ascii.eqb_neq; congruence).
  rewrite E, (IH Hs). reflexivity.
Qed.

Lemma exploded_elem r r0 :
  r ∈ exploded r0 ->
  clean_field (Emails r) /\ event r = event r0 /\ Emails r0 <> [].
Proof.
  unfold exploded. destruct (Emails r0) as [|c s] eqn:E; simpl truthy;
    [intros H; inversion H|].
  intros H. apply list_elem_of_In, in_map_iff in H.
  destruct H as (p & <- & Hp). simpl.
  split; [|split; [reflexivity | discriminate]].
  split; [|apply strip_idem].
  intros Hc. apply strip_elem in Hc.
  destruct (split_pieces "," (c :: s)) as [_ Hf].
  rewrite Forall_forall in Hf. apply (Hf p); [|exact Hc].
  apply list_elem_of_In, Hp.
Qed.

(** X8.  Every row that clean_and_explode_emails emits carries the event
    of an input row whose Emails field is not empty, and its own Emails
    field holds no comma and no white space at either end. *)
Theorem cleaner_rows_are_clean df r :
  r ∈ clean_and_explode_emails df ->
  (","%char ∉ Emails r)
  /\ strip (Emails r) = Emails r
  /\ exists r0, r0 ∈ df /\ event r = event r0 /\ Emails r0 <> [].
Proof.
  rewrite clean_and_explode_emails_flat_map. intros H.
  apply list_elem_of_In, in_flat_map in H. destruct H as (r0 & Hr0 & H).
  apply list_elem_of_In in Hr0, H.
  destruct (exploded_elem r r0 H) as ([Hc Hs] & He & Hne).
  split; [exact Hc|]. split; [exact Hs|]. exists r0. auto.
Qed.

(** A field with names, spaces and commas around one address. *)
Lemma cleaner_rows_are_clean_witness :
  (","%char ∉ str "ann@x.org")
  /\ strip (str "ann@x.org") = str "ann@x.org"
  /\ exists r0,
       r0 ∈ [ {| event := attended ""; Emails := str " Ann Lee ,  ann@x.org ," |} ]
       /\ attended "" = event r0 /\ Emails r0 <> [].
Proof.
  apply (cleaner_rows_are_clean
           [ {| event := attended ""; Emails := str " Ann Lee ,  ann@x.org ," |} ]
           {| event := attended ""; Emails := str "ann@x.org" |}).
  vm_compute. right. left.
Defined.

Lemma exploded_clean r :
  clean_field (Emails r) ->
  exploded r = if bool_decide (Emails r <> []) then [r] else [].
Proof.
  intros [Hc Hs]. unfold exploded.
  destruct r as [e s]. simpl in *.
  destruct s as [|c s]; [reflexivity|]. simpl truthy.
  rewrite bool_decide_true by discriminate.
  rewrite (split_without_comma _ Hc). simpl. unfold with_Emails. simpl.
  rewrite Hs. reflexivity.
Qed.

Lemma flat_map_exploded_clean l :
  Forall (fun r => clean_field (Emails r)) l ->
  flat_map exploded l
  = List.filter (fun r => bool_decide (Emails r <> [])) l.
Proof.
  induction 1 as [|r l Hr _ IH]; [reflexivity|]. simpl.
  rewrite (exploded_clean r Hr), IH.
  destruct (bool_decide (Emails r <> [])); reflexivity.
Qed.

Lemma cleaner_output_clean df :
  Forall (fun r => clean_field (Emails r)) (clean_and_explode_emails df).
Proof.
  apply Forall_forall. intros r Hr.
  rewrite clean_and_explode_emails_flat_map in Hr.
  apply list_elem_of_In, in_flat_map in Hr. destruct Hr as (r0 & _ & H).
  apply list_elem_of_In in H. apply (exploded_elem r r0 H).
Qed.

(** X9.  A second run of clean_and_explode_emails only drops the rows
    that the first run left with an empty Emails field, and a third run
    changes nothing. *)
Theorem cleaner_twice :
  forall df,
    clean_and_explode_emails (clean_and_explode_emails df)
    = List.filter (fun r => bool_decide (Emails r <> []))
        (clean_and_explode_emails df)
    /\ clean_and_explode_emails
         (clean_and_explode_emails (clean_and_explode_emails df))
       = clean_and_explode_emails (clean_and_explode_emails df).
Proof.
  intros df.
  assert (H2 : clean_and_explode_emails (clean_and_explode_emails df)
               = List.filter (fun r => bool_decide (Emails r <> []))
                   (clean_and_explode_emails df)).
  { rewrite (clean_and_explode_emails_flat_map (clean_and_explode_emails df)).
    apply flat_map_exploded_clean, cleaner_output_clean. }
  split; [exact H2|].
  rewrite (clean_and_explode_emails_flat_map
             (clean_and_explode_emails (clean_and_explode_emails df))).
  rewrite flat_map_exploded_clean by apply cleaner_output_clean.
  rewrite H2 at 1 2.
  set (l := clean_and_explode_emails df).
  induction l as [|r l IH]; [reflexivity|]. simpl.
  destruct (bool_decide (Emails r <> [])) eqn:E; simpl; rewrite ?E, IH;
    reflexivity.
Qed.

(** ** The text-file extractors: files, line endings, entries *)

(** X10.  The free-form extractor treats each file on its own: the result
    for a list of files is the result for its first part followed by the
    result for the rest, and no file gives no address. *)
Theorem extract_emails_from_text_app :
  forall files1 files2,
    extract_emails_from_text (files1 ++ files2)
    = extract_emails_from_text files1 ++ extract_emails_from_text files2.
Proof.
  intros files1 files2. rewrite !extract_emails_from_text_flat_map.
  apply flat_map_app.
Qed.

Lemma read_without_cr s : CR ∉ s -> read s = s.
Proof.
  induction s as [|c s IH]; [reflexivity|]. intros H.
  apply not_elem_of_cons in H. destruct H as [Hc Hs]. simpl.
  assert (E : Ascii.eqb c CR = false) by (apply Ascii.eqb_neq; congruence).
  rewrite E, (IH Hs). reflexivity.
Qed.

Lemma read_crlf s : CR ∉ s -> read (with_eol [CR; LF] s) = s.
Proof.
  induction s as [|c s IH]; [reflexivity|]. intros H.
  apply not_elem_of_cons in H. destruct H as [Hc Hs].
  unfold with_eol. cbn [flat_map]. fold (with_eol [CR; LF] s).
  destruct (Ascii.eqb c LF) eqn:E.
  - apply Ascii.eqb_eq in E. subst c.
    change (read ([CR; LF] ++ with_eol [CR; LF] s))
      with (LF :: read (with_eol [CR; LF] s)).
    rewrite (IH Hs). reflexivity.
  - assert (E' : Ascii.eqb c CR = false) by (apply Ascii.eqb_neq; congruence).
    cbn [app read]. rewrite E', (IH Hs). reflexivity.
Qed.

Lemma with_eol_cr_head s :
  match with_eol [CR] s with
  | d :: _ => Ascii.eqb d LF = false
  | [] => s = []
  end.
Proof.
  destruct s as [|c s]; [reflexivity|].
  unfold with_eol. cbn [flat_map].
  destruct (Ascii.eqb c LF) eqn:E; [reflexivity | exact E].
Qed.

Lemma read_cr s : CR ∉ s -> read (with_eol [CR] s) = s.
Proof.
  induction s as [|c s IH]; [reflexivity|]. intros H.
  apply not_elem_of_cons in H. destruct H as [Hc Hs].
  unfold with_eol. cbn [flat_map]. fold (with_eol [CR] s).
  destruct (Ascii.eqb c LF) eqn:E.
  - apply Ascii.eqb_eq in E. subst c. cbn [app].
    pose proof (with_eol_cr_head s) as Hh. specialize (IH Hs).
    destruct (with_eol [CR] s) as [|d t] eqn:Et.
    + subst s. reflexivity.
    + change (read (CR :: d :: t))
        with (if Ascii.eqb d LF then LF :: read t else LF :: read (d :: t)).
      rewrite Hh, IH. reflexivity.
  - assert (E' : Ascii.eqb c CR = false) by (apply Ascii.eqb_neq; congruence).
    cbn [app read]. rewrite E', (IH Hs). reflexivity.
Qed.

(** X11.  Line endings do not matter: a text written with CR LF or with
    CR alone as line ending gives both text-file extractors what the same
    text gives with LF. *)
Theorem extractors_ignore_line_endings (s eol : text) :
  CR ∉ s ->
  eol = [CR; LF] \/ eol = [CR] ->
  extract_emails_from_newline_separated_text (with_eol eol s)
  = extract_emails_from_newline_separated_text s
  /\ extract_emails_from_text [with_eol eol s]
     = extract_emails_from_text [s].
Proof.
  intros Hs Heol.
  assert (Hr : read (with_eol eol s) = read s).
  { rewrite (read_without_cr s Hs).
    destruct Heol as [-> | ->]; [apply read_crlf | apply read_cr]; exact Hs. }
  unfold extract_emails_from_newline_separated_text, extract_emails_from_text.
  simpl. rewrite Hr. split; reflexivity.
Qed.

(** Two addresses on two lines, written with CR LF. *)
Lemma extractors_ignore_line_endings_witness :
  extract_emails_from_newline_separated_text
    (str "a@b.com" ++ [CR; LF] ++ str "c@d.org" ++ [CR; LF])
  = extract_emails_from_newline_separated_text
      (str "a@b.com" ++ [LF] ++ str "c@d.org" ++ [LF])
  /\ extract_emails_from_text
       [str "a@b.com" ++ [CR; LF] ++ str "c@d.org" ++ [CR; LF]]
     = extract_emails_from_text
         [str "a@b.com" ++ [LF] ++ str "c@d.org" ++ [LF]].
Proof.
  apply (extractors_ignore_line_endings
           (str "a@b.com" ++ [LF] ++ str "c@d.org" ++ [LF]) [CR; LF]).
  - vm_compute. intros H. apply list_elem_of_In in H. simpl in H.
    repeat (destruct H as [H | H]; [discriminate H|]). exact H.
  - left. reflexivity.
Defined.

Lemma read_never_cr raw : CR ∉ read raw.
Proof.
  remember (length raw) as n eqn:Hn. revert raw Hn.
  induction n as [n IH] using lt_wf_ind. intros raw ->.
  destruct raw as [|c raw]; [apply not_elem_of_nil|].
  simpl. destruct (Ascii.eqb c CR) eqn:Ec.
  - destruct raw as [|d raw].
    + apply not_elem_of_cons. split; [discriminate | apply not_elem_of_nil].
    + destruct (Ascii.eqb d LF); apply not_elem_of_cons;
        (split; [discriminate|]).
      * apply (IH (length raw)); [simpl; lia | reflexivity].
      * apply (IH (length (d :: raw))); [simpl; lia | reflexivity].
  - apply not_elem_of_cons. split.
    + apply Ascii.eqb_neq in Ec. congruence.
    + apply (IH (length raw)); [simpl; lia | reflexivity].
Qed.

(** A line holds a line feed at its end at most. *)
Lemma lines_shape s :
  Forall (fun line => exists body, (LF ∉ body)
                        /\ (line = body ++ [LF] \/ line = body)) (lines s).
Proof.
  induction s as [|c s IH]; simpl; [constructor|].
  destruct (Ascii.eqb c LF) eqn:E.
  - apply Ascii.eqb_eq in E. subst c. constructor; [|exact IH].
    exists []. split; [apply not_elem_of_nil | left; reflexivity].
  - apply Ascii.eqb_neq in E.
    destruct (lines s) as [|l ls].
    + repeat constructor. exists [c]. split; [|right; reflexivity].
      apply not_elem_of_cons. split; [congruence | apply not_elem_of_nil].
    + inversion IH as [|? ? (body & Hb & Hl) Hls]; subst.
      constructor; [|exact Hls]. exists (c :: body). split.
      * apply not_elem_of_cons. split; [congruence | exact Hb].
      * destruct Hl as [-> | ->]; [left | right]; reflexivity.
Qed.

Lemma lstrip_app_space s c :
  is_space c = true ->
  lstrip (s ++ [c]) = match lstrip s with
                      | [] => []
                      | _ :: _ => lstrip s ++ [c]
                      end.
Proof.
  intros Hc. induction s as [|x s IH]; simpl.
  - rewrite Hc. reflexivity.
  - destruct (is_space x); [exact IH | reflexivity].
Qed.

(** White space at the end of a text is dropped by [strip]. *)
Lemma strip_app_space s c : is_space c = true -> strip (s ++ [c]) = strip s.
Proof.
  intros Hc. unfold strip, rstrip. rewrite (lstrip_app_space s c Hc).
  destruct (lstrip s) as [|x u]; [reflexivity|].
  rewrite rev_app_distr. simpl rev at 2. cbn [app lstrip].
  rewrite Hc. reflexivity.
Qed.

Lemma strip_line_without_lf s line :
  line ∈ lines s -> LF ∉ strip line.
Proof.
  intros Hl. pose proof (lines_shape s) as Hf. rewrite Forall_forall in Hf.
  destruct (Hf line Hl) as (body & Hb & [-> | ->]).
  - rewrite strip_app_space by reflexivity.
    intros H. apply Hb, strip_elem, H.
  - intros H. apply Hb, strip_elem, H.
Qed.

Lemma accepted_elem e line :
  e ∈ accepted line ->
  e = strip line /\ exists n, re_match email_pattern e = Some n.
Proof.
  unfold accepted. destruct (re_match email_pattern (strip line)) eqn:E.
  - intros H. apply list_elem_of_singleton in H. subst e. eauto.
  - intros H. inversion H.
Qed.

Lemma newline_extractor_elem raw e :
  e ∈ extract_emails_from_newline_separated_text raw ->
  exists line n, line ∈ lines (read raw) /\ e = strip line
                 /\ re_match email_pattern e = Some n.
Proof.
  rewrite extract_emails_from_newline_separated_text_flat_map. intros H.
  apply list_elem_of_In, in_flat_map in H. destruct H as (line & Hl & H).
  apply list_elem_of_In in Hl, H.
  destruct (accepted_elem e line H) as (-> & n & Hn). eauto.
Qed.

Lemma flat_map_accepted_length ls :
  length (flat_map accepted ls) <= length ls.
Proof.
  induction ls as [|l ls IH]; simpl; [lia|].
  rewrite length_app. unfold accepted at 1.
  destruct (re_match email_pattern (strip l)); simpl; lia.
Qed.

Lemma newline_entry_facts raw e :
  e ∈ extract_emails_from_newline_separated_text raw ->
  e <> [] /\ strip e = e /\ "@"%char ∈ e /\ (LF ∉ e) /\ (CR ∉ e).
Proof.
  intros He.
  destruct (newline_extractor_elem raw e He) as (line & n & Hl & -> & Hn).
  pose proof (re_match_email_at _ _ Hn) as Hat.
  split; [intros E; rewrite E in Hat; inversion Hat|].
  split; [apply strip_idem|]. split; [exact Hat|].
  split; [eapply strip_line_without_lf, Hl|].
  intros H. apply (read_never_cr raw).
  eapply lines_elem; [exact Hl | apply strip_elem, H].
Qed.

(** X12.  The newline-delimited extractor returns at most one entry for
    each line, and every entry is a single stripped line that starts with
    an address: it is not empty, holds an "@", has no white space at either
    end and no line feed or carriage return inside. *)
Theorem newline_extractor_entries raw :
  length (extract_emails_from_newline_separated_text raw)
    <= length (lines (read raw))
  /\ forall e, e ∈ extract_emails_from_newline_separated_text raw ->
       e <> [] /\ strip e = e /\ "@"%char ∈ e /\ (LF ∉ e) /\ (CR ∉ e).
Proof.
  split.
  - rewrite extract_emails_from_newline_separated_text_flat_map.
    apply flat_map_accepted_length.
  - apply newline_entry_facts.
Qed.

Lemma scan_head pattern c s n :
  match_ops pattern false 0 None (c :: s) = Some (S n) ->
  exists rest, findall pattern (c :: s) = take (S n) (c :: s) :: rest.
Proof.
  intros H. unfold findall. simpl scan. rewrite H. eauto.
Qed.

(** X13.  Whatever the newline-delimited extractor accepts, the free-form
    extractor sees an address in: given an accepted entry as the content of
    a file, it returns first the address that the entry starts with. *)
Theorem accepted_entry_starts_with_address raw e :
  e ∈ extract_emails_from_newline_separated_text raw ->
  exists n rest,
    re_match email_pattern e = Some n
    /\ 6 <= n
    /\ extract_emails_from_text [e] = take n e :: rest.
Proof.
  intros He.
  destruct (newline_entry_facts raw e He) as (_ & _ & _ & _ & Hcr).
  destruct (newline_extractor_elem raw e He) as (line & n & _ & _ & Hn).
  exists n.
  assert (H6 : 6 <= n).
  { unfold re_match in Hn.
    destruct (match_ops_sound _ _ _ _ _ _ Hn) as (m & rest & _ & -> & Hm).
    destruct (address_shaped_at m (matches_email_shape _ _ _ Hm)) as (_ & H & _).
    simpl. exact H. }
  rewrite extract_emails_from_text_flat_map. simpl.
  rewrite app_nil_r, (read_without_cr e Hcr).
  destruct n as [|n]; [lia|].
  destruct e as [|c e]; [discriminate|].
  destruct (scan_head email_pattern c e n Hn) as [rest Hrest].
  exists rest. auto.
Qed.

(** The line of the open question: accepted whole, and the free-form
    extractor finds its first seven characters. *)
Lemma accepted_entry_starts_with_address_witness :
  exists n rest,
    re_match email_pattern (str "a@b.com extra text") = Some n
    /\ 6 <= n
    /\ extract_emails_from_text [str "a@b.com extra text"]
       = take n (str "a@b.com extra text") :: rest.
Proof.
  apply (accepted_entry_starts_with_address
           (str "  a@b.com extra text " ++ [LF])).
  vm_compute. left.
Defined.

(** ** The command line, end to end *)

Lemma unique_fold l : forall seen,
  NoDup seen ->
  NoDup (fold_left
           (fun seen x => if bool_decide (x ∈ seen) then seen else seen ++ [x])
           l seen)
  /\ forall x : text,
       x ∈ fold_left
             (fun seen x => if bool_decide (x ∈ seen) then seen else seen ++ [x])
             l seen
       <-> x ∈ seen \/ x ∈ l.
Proof.
  induction l as [|y l IH]; intros seen Hnd; simpl.
  - split; [exact Hnd|]. intros x. rewrite elem_of_nil. tauto.
  - destruct (bool_decide (y ∈ seen)) eqn:E.
    + apply bool_decide_eq_true in E.
      destruct (IH seen Hnd) as [H1 H2]. split; [exact H1|].
      intros x. rewrite H2, elem_of_cons. split; [tauto|].
      intros [H | [-> | H]]; auto.
    + apply bool_decide_eq_false in E.
      assert (Hnd' : NoDup (seen ++ [y])).
      { apply NoDup_app. split; [exact Hnd|]. split.
        - intros x Hx Hy. apply list_elem_of_singleton in Hy. subst. auto.
        - apply NoDup_singleton. }
      destruct (IH (seen ++ [y]) Hnd') as [H1 H2]. split; [exact H1|].
      intros x. rewrite H2, elem_of_app, !elem_of_cons, elem_of_nil.
      tauto.
Qed.

(** [unique] keeps the members and drops the repetitions. *)
Lemma unique_spec l : NoDup (unique l) /\ forall x, x ∈ unique l <-> x ∈ l.
Proof.
  unfold unique. destruct (unique_fold l [] (NoDup_nil_2)) as [H1 H2].
  split; [exact H1|]. intros x. rewrite H2, elem_of_nil. tauto.
Qed.

Lemma pipeline_emails_elem df x :
  x ∈ map Emails (clean_and_explode_emails (extract_email_addresses df))
  <-> exists ev, ev ∈ df /\ x ∈ findall email_pattern (Attendees ev).
Proof.
  rewrite pipeline_rows, list_elem_of_In, in_map_iff. split.
  - intros (r & <- & Hr). apply in_flat_map in Hr.
    destruct Hr as (ev & Hev & Hr). unfold matched_rows in Hr.
    apply in_map_iff in Hr. destruct Hr as (m & <- & Hm).
    exists ev. split; apply list_elem_of_In; assumption.
  - intros (ev & Hev & Hx). exists {| event := ev; Emails := x |}.
    split; [reflexivity|]. apply in_flat_map. exists ev.
    split; [apply list_elem_of_In, Hev|].
    unfold matched_rows. apply in_map_iff. exists x.
    split; [reflexivity | apply list_elem_of_In, Hx].
Qed.

Lemma text_emails_elem files x :
  x ∈ match files with
      | [] => []
      | _ :: _ => extract_emails_from_text files
      end
  <-> exists raw, raw ∈ files /\ x ∈ findall email_pattern (read raw).
Proof.
  assert (E : match files with
              | [] => []
              | _ :: _ => extract_emails_from_text files
              end = extract_emails_from_text files)
    by (destruct files; reflexivity).
  rewrite E, extract_emails_from_text_flat_map, list_elem_of_In, in_flat_map.
  split; intros (raw & H1 & H2); exists raw;
    split; apply list_elem_of_In; assumption.
Qed.

Lemma newline_emails_elem nf x :
  x ∈ match nf with
      | Some raw => extract_emails_from_newline_separated_text raw
      | None => []
      end
  <-> exists raw line n,
        nf = Some raw /\ line ∈ lines (read raw)
        /\ x = strip line /\ re_match email_pattern x = Some n.
Proof.
  destruct nf as [raw|].
  - split.
    + intros H. destruct (newline_extractor_elem raw x H) as (l & n & H1 & H2 & H3).
      exists raw, l, n. auto.
    + intros (raw' & l & n & [= <-] & Hl & -> & Hn).
      rewrite extract_emails_from_newline_separated_text_flat_map.
      apply list_elem_of_In, in_flat_map. exists l.
      split; [apply list_elem_of_In, Hl|].
      unfold accepted. rewrite Hn. left. reflexivity.
  - split; [intros H; inversion H|].
    intros (raw & _ & _ & H & _). discriminate.
Qed.

Lemma extract_emails_Ok (tz : Z -> Z) (gcal : list component)
    (s e : option Z) (files : list text) (nf : option text)
    (df : list Event) :
  ics_to_dataframe tz gcal s e = Ok df ->
  exists S : gset text,
    extract_emails tz gcal s e files nf = Ok S
    /\ forall x, x ∈ S <-> found df files nf x.
Proof.
  intros H. unfold extract_emails. rewrite H. simpl.
  eexists. split; [reflexivity|]. intros x. unfold merge, found.
  rewrite elem_of_list_to_set, !elem_of_app.
  rewrite (proj2 (unique_spec _) x), pipeline_emails_elem.
  rewrite text_emails_elem, newline_emails_elem. tauto.
Qed.

(** X14.  The command fails as the loader fails, with the same error and
    before any text file counts.  When the loader returns its events, the
    command returns the collection of the addresses found: a string is in
    it exactly when it is a match in the attendee text of a returned event,
    a match in one of the name-and-address files, or an accepted line of
    the newline-delimited file. *)
Theorem extract_emails_collects :
  forall tz gcal s e files nf,
    (forall err, ics_to_dataframe tz gcal s e = Raise err ->
                 extract_emails tz gcal s e files nf = Raise err)
    /\ (forall df, ics_to_dataframe tz gcal s e = Ok df ->
          exists S : gset text,
            extract_emails tz gcal s e files nf = Ok S
            /\ forall x, x ∈ S <-> found df files nf x).
Proof.
  intros tz gcal s e files nf. split.
  - intros err H. unfold extract_emails. rewrite H. reflexivity.
  - intros df. apply extract_emails_Ok.
Qed.

(** X15.  The name-and-address files count as a set: two lists with the
    same files, in any order and however often repeated, give the same
    result. *)
Theorem extract_emails_files_as_set tz gcal s e files files' nf :
  (forall raw, raw ∈ files <-> raw ∈ files') ->
  extract_emails tz gcal s e files nf = extract_emails tz gcal s e files' nf.
Proof.
  intros Hsame.
  destruct (ics_to_dataframe tz gcal s e) as [df|err] eqn:E.
  - destruct (extract_emails_Ok tz gcal s e files nf df E) as (S & -> & HS).
    destruct (extract_emails_Ok tz gcal s e files' nf df E) as (S' & -> & HS').
    f_equal. apply set_eq. intros x. rewrite HS, HS'. unfold found.
    split; (intros [H | [(raw & Hr & Hx) | H]];
      [left; exact H | right; left; exists raw; split; [apply Hsame, Hr | exact Hx]
      | right; right; exact H]).
  - unfold extract_emails. rewrite E. reflexivity.
Qed.

(** Two files given in the other order, one of them twice. *)
Lemma extract_emails_files_as_set_witness :
  extract_emails (fun _ => 0%Z) [vevent (Date 0)] None None
    [str "a@b.com"; str "c@d.org"] None
  = extract_emails (fun _ => 0%Z) [vevent (Date 0)] None None
      [str "c@d.org"; str "a@b.com"; str "c@d.org"] None.
Proof.
  apply extract_emails_files_as_set.
  intros raw. rewrite !elem_of_cons, !elem_of_nil. tauto.
Defined.

Lemma findall_email_facts s x :
  x ∈ findall email_pattern s ->
  x <> [] /\ strip x = x /\ "@"%char ∈ x /\ (LF ∉ x).
Proof.
  intros H. destruct (findall_email_plain s x H) as [Hne Hp].
  split; [exact Hne|]. split; [apply strip_plain, Hp|]. split.
  - apply (address_shaped_at x (findall_email_shaped s x H)).
  - intros HLF. unfold plain in Hp. rewrite Forall_forall in Hp.
    destruct (Hp LF HLF) as [Hsp _]. discriminate Hsp.
Qed.

(** X16.  Every string of the final collection is not empty, holds an
    "@", has no white space at either end and no line feed inside: written
    one per line, the collection gives as many lines as it has addresses. *)
Theorem extract_emails_entries (tz : Z -> Z) (gcal : list component)
    (s e : option Z) (files : list text) (nf : option text)
    (S : gset text) (x : text) :
  extract_emails tz gcal s e files nf = Ok S ->
  x ∈ S ->
  x <> [] /\ strip x = x /\ "@"%char ∈ x /\ (LF ∉ x).
Proof.
  intros H Hx.
  destruct (ics_to_dataframe tz gcal s e) as [df|err] eqn:E.
  2:{ unfold extract_emails in H. rewrite E in H. discriminate. }
  destruct (extract_emails_Ok tz gcal s e files nf df E) as (S' & HS' & Hin).
  rewrite H in HS'. injection HS' as <-. apply Hin in Hx.
  destruct Hx as [(ev & _ & Hx) | [(raw & _ & Hx) | (raw & l & n & _ & Hl & -> & Hn)]].
  - eapply findall_email_facts, Hx.
  - eapply findall_email_facts, Hx.
  - destruct (newline_entry_facts raw (strip l)) as (H1 & H2 & H3 & H4 & _);
      [|auto].
    rewrite extract_emails_from_newline_separated_text_flat_map.
    apply list_elem_of_In, in_flat_map. exists l.
    split; [apply list_elem_of_In, Hl|].
    unfold accepted. rewrite Hn. left. reflexivity.
Qed.

(** X17.  Date bounds only remove: when the command succeeds without
    bounds, it succeeds with any two bounds and returns a part of what it
    returned without them. *)
Theorem extract_emails_bounds_only_remove (tz : Z -> Z)
    (gcal : list component) (s e : Z) (files : list text)
    (nf : option text) (S0 : gset text) :
  extract_emails tz gcal None None files nf = Ok S0 ->
  exists S1 : gset text,
    extract_emails tz gcal (Some s) (Some e) files nf = Ok S1 /\ S1 ⊆ S0.
Proof.
  intros H.
  destruct (ics_to_dataframe tz gcal None None) as [df|err] eqn:E.
  2:{ unfold extract_emails in H. rewrite E in H. discriminate. }
  destruct (extract_emails_Ok tz gcal None None files nf df E) as (S & HS & Hin).
  rewrite H in HS. injection HS as <-.
  assert (E' : ics_to_dataframe tz gcal (Some s) (Some e)
               = Ok (List.filter (in_range s e) df)).
  { rewrite ics_to_dataframe_bounds, E. reflexivity. }
  destruct (extract_emails_Ok tz gcal (Some s) (Some e) files nf _ E')
    as (S1 & HS1 & Hin1).
  exists S1. split; [exact HS1|].
  intros x Hx. apply Hin. apply Hin1 in Hx.
  destruct Hx as [(ev & Hev & Hx) | H']; [left | right; exact H'].
  exists ev. split; [|exact Hx].
  apply list_elem_of_In, filter_In in Hev. apply list_elem_of_In, Hev.
Qed.

(** One event, one name-and-address file and one newline-delimited file. *)
Lemma extract_emails_entries_witness :
  str "cy@z.net extra" <> []
  /\ strip (str "cy@z.net extra") = str "cy@z.net extra"
  /\ "@"%char ∈ str "cy@z.net extra"
  /\ (LF ∉ str "cy@z.net extra").
Proof.
  apply (extract_emails_entries (fun _ => 0%Z)
           [invited (Date (date 2023 9 2)) "Ann <ann@x.org>"] None None
           [str "Bob bob@y.org"] (Some (str " cy@z.net extra " ++ [LF]))
           (merge [str "cy@z.net extra"] [str "ann@x.org"] [str "bob@y.org"])).
  - vm_compute. reflexivity.
  - unfold merge. apply elem_of_list_to_set. left.
Defined.

(** Two events, of which the bounds keep the second. *)
Lemma extract_emails_bounds_only_remove_witness :
  exists S1 : gset text,
    extract_emails (fun _ => 0%Z)
      [invited (Date (date 2023 7 31)) "ann@x.org";
       invited (Date (date 2023 9 2)) "bob@y.org"]
      (Some (datetime 2023 8 1 0 0)) (Some (datetime 2024 1 1 0 0)) [] None
    = Ok S1
    /\ S1 ⊆ merge [] [str "ann@x.org"; str "bob@y.org"] [].
Proof.
  apply (extract_emails_bounds_only_remove (fun _ => 0%Z)
           [invited (Date (date 2023 7 31)) "ann@x.org";
            invited (Date (date 2023 9 2)) "bob@y.org"]
           (datetime 2023 8 1 0 0) (datetime 2024 1 1 0 0) [] None).
  vm_compute. reflexivity.
Defined.

(** ** extract_email_addresses: the Emails field *)

Lemma occurrences_join_at ms :
  Forall address_shaped ms ->
  occurrences "@" (join (str ", ") ms) = length ms.
Proof.
  induction 1 as [|m ms Hm Hms IH]; [reflexivity|].
  destruct (address_shaped_at m Hm) as (H1 & _).
  destruct ms as [|m2 ms]; [simpl; exact H1|].
  change (join (str ", ") (m :: m2 :: ms))
    with (m ++ ","%char :: " "%char :: join (str ", ") (m2 :: ms)).
  rewrite occurrences_app, H1.
  change (occurrences "@" (","%char :: " "%char :: join (str ", ") (m2 :: ms)))
    with (occurrences "@" (join (str ", ") (m2 :: ms))).
  rewrite IH. reflexivity.
Qed.

(** X18.  extract_email_addresses returns the events it was given, in
    order, each with an Emails field that holds as many "@" as the pattern
    has matches in the attendee text; the field is empty exactly when there
    is no match. *)
Theorem extract_email_addresses_counts :
  forall df,
    map event (extract_email_addresses df) = df
    /\ Forall (fun r =>
         occurrences "@" (Emails r)
         = length (findall email_pattern (Attendees (event r)))
         /\ (Emails r = []
             <-> findall email_pattern (Attendees (event r)) = []))
         (extract_email_addresses df).
Proof.
  intros df. unfold extract_email_addresses. split.
  - rewrite map_map. apply map_id.
  - apply Forall_forall. intros r Hr.
    apply list_elem_of_In, in_map_iff in Hr. destruct Hr as (ev & <- & _).
    cbn [Emails event].
    assert (Hc : occurrences "@"
                   (join (str ", ") (findall email_pattern (Attendees ev)))
                 = length (findall email_pattern (Attendees ev))).
    { apply occurrences_join_at, Forall_forall. intros m Hm.
      eapply findall_email_shaped, Hm. }
    split; [exact Hc|]. split.
    + intros E. rewrite E in Hc.
      destruct (findall email_pattern (Attendees ev)); [reflexivity|].
      discriminate Hc.
    + intros ->. reflexivity.
Qed.

(** ** One address for each "@" at most *)

Lemma occurrences_cons_le c x s : occurrences c s <= occurrences c (x :: s).
Proof.
  unfold occurrences. simpl. destruct (Ascii.eqb c x); simpl; lia.
Qed.

Lemma occurrences_cons c x s :
  occurrences c (x :: s)
  = (if Ascii.eqb c x then 1 else 0) + occurrences c s.
Proof.
  unfold occurrences. simpl. destruct (Ascii.eqb c x); reflexivity.
Qed.

Lemma tiles_email_count prev s ms :
  tiles email_pattern prev s ms -> length ms <= occurrences "@" s.
Proof.
  induction 1 as [| prev c s ms _ _ IH | prev m rest ms _ Hm _ IH]; simpl.
  - lia.
  - pose proof (occurrences_cons_le "@" c s). lia.
  - rewrite occurrences_app.
    destruct (address_shaped_at m (matches_email_shape _ _ _ Hm)) as (H1 & _).
    lia.
Qed.

Lemma occurrences_at_read raw :
  occurrences "@" (read raw) = occurrences "@" raw.
Proof.
  remember (length raw) as n eqn:Hn. revert raw Hn.
  induction n as [n IH] using lt_wf_ind. intros raw ->.
  destruct raw as [|c raw]; [reflexivity|].
  simpl read. destruct (Ascii.eqb c CR) eqn:Ec.
  - apply Ascii.eqb_eq in Ec. subst c.
    destruct raw as [|d raw]; [reflexivity|].
    destruct (Ascii.eqb d LF) eqn:Ed.
    + apply Ascii.eqb_eq in Ed. subst d.
      change (occurrences "@" (LF :: read raw)) with (occurrences "@" (read raw)).
      change (occurrences "@" (CR :: LF :: raw)) with (occurrences "@" raw).
      apply (IH (length raw)); [simpl; lia | reflexivity].
    + change (occurrences "@" (LF :: read (d :: raw)))
        with (occurrences "@" (read (d :: raw))).
      change (occurrences "@" (CR :: d :: raw))
        with (occurrences "@" (d :: raw)).
      apply (IH (length (d :: raw))); [simpl; lia | reflexivity].
  - rewrite !occurrences_cons.
    rewrite (IH (length raw) ltac:(simpl; lia) raw eq_refl). reflexivity.
Qed.

(** X19.  There is at most one address for each "@": the free-form
    extractor returns no more addresses than the files hold "@", and the
    calendar pipeline no more rows than the attendee texts hold "@". *)
Theorem addresses_bounded_by_at_signs :
  (forall files,
     length (extract_emails_from_text files)
     <= occurrences "@" (concat files))
  /\ (forall df,
        length (clean_and_explode_emails (extract_email_addresses df))
        <= occurrences "@" (concat (map Attendees df))).
Proof.
  split.
  - intros files. rewrite extract_emails_from_text_flat_map.
    induction files as [|raw files IH]; simpl; [lia|].
    rewrite length_app, occurrences_app.
    pose proof (tiles_email_count None (read raw) _
                  (findall_email_tiles (read raw))) as H.
    rewrite occurrences_at_read in H. lia.
  - intros df. rewrite pipeline_rows.
    induction df as [|ev df IH]; simpl; [lia|].
    rewrite length_app, occurrences_app. unfold matched_rows at 1.
    rewrite length_map.
    pose proof (tiles_email_count None (Attendees ev) _
                  (findall_email_tiles (Attendees ev))) as H.
    lia.
Qed.
